(** * django_model_changes: the change-history engine of [changes.py]

    A shallow embedding of [django_model_changes/changes.py]
    ([InstanceChanges], and the three signal receivers of [ModelChanges])
    together with the properties of the snapshot history, the state and
    diff queries, the persistence queries and the reconstructed instances.

    Python dictionaries are finite maps ([gmap string _]); a raised
    exception is the [Raise] branch of [result]; the tracked model
    instance, which the tracker only holds a reference to, is the
    [instance] component of the tracker, so that a write to the instance is
    seen by every later query. *)

From Stdlib Require Import ZArith.
From stdpp Require Import gmap strings list fin_maps.

Local Open Scope list_scope.

(** ** Python values and exceptions *)

(** The values a model field (or a relation cache) holds.  [VObj oid opk] is
    a reference to a related model instance: [oid] is the identity of the
    object and [opk] its primary key ([None] while it is unsaved). *)
Inductive value :=
| VNone
| VBool (b : bool)
| VInt (n : Z)
| VStr (s : string)
| VObj (oid : positive) (opk : option Z).

Inductive exception :=
| AttributeError
| KeyError
| IndexError
| ValueError.

Inductive result (A : Type) :=
| Ok (a : A)
| Raise (e : exception).
Arguments Ok {A} a.
Arguments Raise {A} e.

(** Sequencing: an exception raised by the first computation ends the
    whole one. *)
Global Instance result_bind : MBind result := λ A B k m,
  match m with
  | Ok a => k a
  | Raise e => Raise e
  end.

Definition num_of (v : value) : option Z :=
  match v with
  | VBool b => Some (if b then 1 else 0)%Z
  | VInt n => Some n
  | _ => None
  end.

(** Python's [==]: [None] equals only [None], booleans compare as the
    integers 0 and 1, strings by content, and two model instances are
    equal when they are the same object or carry the same non-null
    primary key (Django's [Model.__eq__]). *)
Definition py_eq (a b : value) : bool :=
  match a, b with
  | VNone, VNone => true
  | VStr s, VStr t => bool_decide (s = t)
  | VObj i p, VObj j q =>
      bool_decide (i = j)
      || match p, q with
         | Some x, Some y => bool_decide (x = y)
         | _, _ => false
         end
  | _, _ =>
      match num_of a, num_of b with
      | Some x, Some y => bool_decide (x = y)
      | _, _ => false
      end
  end.

(** Python's [!=]. *)
Definition py_ne (a b : value) : bool := negb (py_eq a b).

(** Python's [bool(v)]. *)
Definition py_bool (v : value) : bool :=
  match v with
  | VNone => false
  | VBool b => b
  | VInt n => negb (bool_decide (n = 0%Z))
  | VStr s => negb (bool_decide (s = ""))
  | VObj _ _ => true
  end.

(** [l[i]] on a Python list. *)
Definition index {A} (l : list A) (i : nat) : result A :=
  match l !! i with
  | Some x => Ok x
  | None => Raise IndexError
  end.

(** ** Model classes and instances *)

(** What the tracker uses of a Django field: [field.attname],
    [field.name], the truth of [field.rel], and, for a relation, the
    [cache_name] of the descriptor stored under [field.name] in the class
    dictionary.  [null] and [get_default] are read by the framework when a
    relation is assigned and when an instance is constructed. *)
Record Field := {
  attname : string;
  name : string;
  rel : bool;
  cache_name : string;
  null : bool;
  get_default : value
}.

(** [instance._meta]: the local fields and the primary-key field. *)
Record Options := {
  local_fields : list Field;
  pk : Field
}.

(** A model instance: its class (through [_meta]) and its attribute
    dictionary. *)
Record Model := {
  _meta : Options;
  __dict__ : gmap string value
}.

Definition getattr (m : Model) (a : string) : result value :=
  match __dict__ m !! a with
  | Some v => Ok v
  | None => Raise AttributeError
  end.

(** A plain attribute write, [instance.a = v] where the class has no data
    descriptor under [a]. *)
Definition set_attribute (m : Model) (a : string) (v : value) : Model :=
  {| _meta := _meta m; __dict__ := <[a:=v]> (__dict__ m) |}.

(** [del instance.a]. *)
Definition del_attribute (m : Model) (a : string) : Model :=
  {| _meta := _meta m; __dict__ := delete a (__dict__ m) |}.

(** [instance._meta.pk.attname]. *)
Definition pk_attname (m : Model) : string := attname (pk (_meta m)).

(** The [pk] property of a model instance reads and writes the attribute
    [_meta.pk.attname]. *)
Definition get_pk (m : Model) : result value :=
  getattr m (pk_attname m).

Definition set_pk (m : Model) (v : value) : Model :=
  set_attribute m (pk_attname m) v.

(** ** The tracker *)

Definition SAVE : value := VInt 0.
Definition DELETE : value := VInt 1.

(** An [InstanceChanges] object: the tracked instance and the list
    [_states] of saved states. *)
Record InstanceChanges := {
  instance : Model;
  _states : list (gmap string value)
}.

(** One call of [post_change.send]. *)
Record post_change_call := {
  sender : Options;
  sent_instance : Model;
  sent_changes : InstanceChanges
}.

(** One turn of the loop of [current_state]: the value [v] of the
    field's [attname] is stored, and for a relation whose instance has the
    attribute [cache_name] (the [hasattr] test) the cached object is stored
    under the field's [name]. *)
Definition read_field (m : Model) (field : Field) (v : value)
    (fields : gmap string value) : gmap string value :=
  let fields := <[attname field := v]> fields in
  if rel field then
    match __dict__ m !! cache_name field with
    | Some cached => <[name field := cached]> fields
    | None => fields
    end
  else fields.

(** The loop of [current_state] over [_meta.local_fields], with the
    dictionary [fields] built so far. *)
Fixpoint read_fields (m : Model) (fs : list Field)
    (fields : gmap string value) : result (gmap string value) :=
  match fs with
  | [] => Ok fields
  | field :: rest =>
      v ← getattr m (attname field);
      read_fields m rest (read_field m field v fields)
  end.

Definition current_state (self : InstanceChanges)
    : result (gmap string value) :=
  read_fields (instance self) (local_fields (_meta (instance self))) ∅.

Definition previous_state (self : InstanceChanges)
    : result (gmap string value) :=
  if bool_decide (1 < length (_states self))
  then index (_states self) 1
  else index (_states self) 0.

Definition old_state (self : InstanceChanges)
    : result (gmap string value) :=
  index (_states self) 0.

(** The first statement of [_save_state]: on a delete the primary key of
    the instance is set to [None]. *)
Definition clear_pk_on_delete (event_type : value) (self : InstanceChanges)
    : InstanceChanges :=
  if py_eq event_type DELETE
  then {| instance := set_pk (instance self) VNone;
          _states := _states self |}
  else self.

(** The two statements of [_save_state] on [_states]: [append], then
    [pop(0)] when more than two states are held. *)
Definition push (states : list (gmap string value))
    (state : gmap string value) : list (gmap string value) :=
  let states := states ++ [state] in
  if bool_decide (2 < length states) then tail states else states.

(** [_save_state]: clear the primary key on a delete, save the current
    state, and send [post_change] unless [new_instance]. *)
Definition _save_state (new_instance : bool) (event_type : value)
    (self : InstanceChanges) (sent : list post_change_call)
    : result (InstanceChanges * list post_change_call) :=
  let self := clear_pk_on_delete event_type self in
  state ← current_state self;
  let self := {| instance := instance self;
                 _states := push (_states self) state |} in
  let sent :=
    if negb new_instance
    then sent ++ [ {| sender := _meta (instance self);
                      sent_instance := instance self;
                      sent_changes := self |} ]
    else sent in
  Ok (self, sent).

(** [InstanceChanges.__init__]: an empty [_states], then
    [_save_state(new_instance=True)], whose [event_type] is the default
    string ['save']. *)
Definition __init__ (instance : Model) (sent : list post_change_call)
    : result (InstanceChanges * list post_change_call) :=
  _save_state true (VStr "save")
    {| instance := instance; _states := [] |} sent.

(** ** Diffs *)

(** [d[key]] on a Python dictionary. *)
Definition getitem (d : gmap string value) (key : string) : result value :=
  match d !! key with
  | Some v => Ok v
  | None => Raise KeyError
  end.

(** [dict(pairs)]: the pairs are inserted from left to right. *)
Definition dict {A} (pairs : list (string * A)) : gmap string A :=
  fold_left (λ d p, <[p.1 := p.2]> d) pairs ∅.

(** The list comprehension of [_changes] over the items of [other]:
    [current[key]] is looked up for every item, and the item is kept when
    the two values differ. *)
Fixpoint changed_items (items : list (string * value))
    (current : gmap string value) : result (list (string * (value * value))) :=
  match items with
  | [] => Ok []
  | (key, was) :: rest =>
      now ← getitem current key;
      kept ← changed_items rest current;
      Ok (if py_ne was now then (key, (was, now)) :: kept else kept)
  end.

Definition _changes (other current : gmap string value)
    : result (gmap string (value * value)) :=
  items ← changed_items (map_to_list other) current;
  Ok (dict items).

Definition changes (self : InstanceChanges)
    : result (gmap string (value * value)) :=
  previous ← previous_state self;
  current ← current_state self;
  _changes previous current.

Definition old_changes (self : InstanceChanges)
    : result (gmap string (value * value)) :=
  old ← old_state self;
  current ← current_state self;
  _changes old current.

Definition previous_changes (self : InstanceChanges)
    : result (gmap string (value * value)) :=
  old ← old_state self;
  previous ← previous_state self;
  _changes old previous.

(** ** Persistence *)

Definition was_persisted (self : InstanceChanges) : result bool :=
  let pk_attname := pk_attname (instance self) in
  old ← old_state self;
  v ← getitem old pk_attname;
  Ok (py_bool v).

Definition is_persisted (self : InstanceChanges) : result bool :=
  v ← get_pk (instance self);
  Ok (py_bool v).

(** ** Instances rebuilt from a state *)

(** [cls()]: Django's [Model.__init__] without arguments gives every
    field's [attname] the field's default. *)
Definition new_model (cls : Options) : Model :=
  {| _meta := cls;
     __dict__ := fold_left (λ d f, <[attname f := get_default f]> d)
                   (local_fields cls) ∅ |}.

(** The relation descriptor the class holds under [key], if any. *)
Definition descriptor (cls : Options) (key : string) : option Field :=
  List.find (λ f, rel f && bool_decide (name f = key)) (local_fields cls).

Definition pk_value (opk : option Z) : value :=
  match opk with
  | Some n => VInt n
  | None => VNone
  end.

(** [__set__] of Django's descriptor of a forward relation: [None] is
    refused unless the field is nullable, anything but a model instance is
    refused, and otherwise the field's [attname] receives the primary key
    of the assigned object and the cache receives the object. *)
Definition related_set (field : Field) (m : Model) (v : value)
    : result Model :=
  match v with
  | VNone =>
      if null field
      then Ok (set_attribute (set_attribute m (attname field) VNone)
                 (cache_name field) VNone)
      else Raise ValueError
  | VObj _ opk =>
      Ok (set_attribute (set_attribute m (attname field) (pk_value opk))
            (cache_name field) v)
  | _ => Raise ValueError
  end.

(** [setattr(instance, key, value)]: through the relation descriptor when
    the class has one under [key], a plain attribute write otherwise. *)
Definition setattr (m : Model) (key : string) (v : value) : result Model :=
  match descriptor (_meta m) key with
  | Some field => related_set field m v
  | None => Ok (set_attribute m key v)
  end.

(** The loop of [_instance_from_state] over [state.items()]. *)
Fixpoint assign_items (m : Model) (items : list (string * value))
    : result Model :=
  match items with
  | [] => Ok m
  | (key, v) :: rest =>
      m ← setattr m key v;
      assign_items m rest
  end.

Definition _instance_from_state (self : InstanceChanges)
    (state : gmap string value) : result Model :=
  assign_items (new_model (_meta (instance self))) (map_to_list state).

Definition old_instance (self : InstanceChanges) : result Model :=
  state ← old_state self;
  _instance_from_state self state.

Definition previous_instance (self : InstanceChanges) : result Model :=
  state ← previous_state self;
  _instance_from_state self state.

(** ** The signal receivers of [ModelChanges] *)

(** The instance a receiver is called with: either it has no [_changes]
    attribute, or its [_changes] attribute is the tracker (whose
    [instance] is that very instance). *)
Inductive signal_instance :=
| without_changes (m : Model)
| with_changes (c : InstanceChanges).

Definition model_of (i : signal_instance) : Model :=
  match i with
  | without_changes m => m
  | with_changes c => instance c
  end.

Definition _post_init (i : signal_instance) (sent : list post_change_call)
    : result (signal_instance * list post_change_call) :=
  r ← __init__ (model_of i) sent;
  Ok (with_changes r.1, r.2).

Definition _post_save (i : signal_instance) (sent : list post_change_call)
    : result (signal_instance * list post_change_call) :=
  match i with
  | with_changes c =>
      r ← _save_state false SAVE c sent;
      Ok (with_changes r.1, r.2)
  | without_changes _ => Ok (i, sent)
  end.

(** [_post_delete] looks [_save_state] up on the model instance itself,
    which has no such attribute. *)
Definition _post_delete (i : signal_instance) (sent : list post_change_call)
    : result (signal_instance * list post_change_call) :=
  match i with
  | with_changes _ => Raise AttributeError
  | without_changes _ => Ok (i, sent)
  end.

(** The signals that reach the receivers of a [ModelChanges], delivered
    one after the other to an instance; [post_init], [post_save] and
    [post_delete] name the signal (declared with the registry below). *)
Inductive delivered :=
| init_signal
| save_signal
| delete_signal.

Global Instance delivered_eq_dec : EqDecision delivered.
Proof. solve_decision. Defined.

Fixpoint deliver (signals : list delivered) (i : signal_instance)
    (sent : list post_change_call)
    : result (signal_instance * list post_change_call) :=
  match signals with
  | [] => Ok (i, sent)
  | s :: rest =>
      r ← match s with
          | init_signal => _post_init i sent
          | save_signal => _post_save i sent
          | delete_signal => _post_delete i sent
          end;
      deliver rest r.1 r.2
  end.

(** ** The registry *)

(** A model class, as far as the registry looks at it: [model.__name__],
    [str(model._meta)] and [model._meta.abstract].  Two classes are the
    same key of the registry when they are the same class. *)
Record ModelBase := {
  __name__ : string;
  label : string;
  abstract : bool
}.

Global Instance ModelBase_eq_dec : EqDecision ModelBase.
Proof. solve_decision. Defined.

Global Instance ModelBase_countable : Countable ModelBase.
Proof.
  refine (inj_countable'
            (λ c, (__name__ c, label c, abstract c))
            (λ t, {| __name__ := t.1.1; label := t.1.2; abstract := t.2 |})
            _).
  by intros [].
Defined.

(** The exceptions of [register] and [unregister], with their message. *)
Inductive registry_error :=
| ImproperlyConfigured (message : string)
| AlreadyRegistered (message : string)
| NotRegistered (message : string).

Inductive signal :=
| post_init
| post_save
| post_delete.

(** One call [signal.connect(receiver, sender=..., dispatch_uid=...)]; the
    receiver is the method of the new [ModelChanges] that is named after
    the signal. *)
Record connection := {
  connected_signal : signal;
  connected_sender : ModelBase;
  dispatch_uid : string
}.

(** A [ModelChanges] object. *)
Record ModelChanges := {
  model : ModelBase
}.

(** [ModelChanges.__init__]: the three receivers are connected, all under
    the [dispatch_uid] ['django-changes-%s' % str(model._meta)]. *)
Definition ModelChanges__init__ (model : ModelBase)
    (connected : list connection) : ModelChanges * list connection :=
  let uid := "django-changes-" +:+ label model in
  ({| model := model |},
   connected
   ++ [ {| connected_signal := post_init; connected_sender := model;
           dispatch_uid := uid |};
        {| connected_signal := post_save; connected_sender := model;
           dispatch_uid := uid |};
        {| connected_signal := post_delete; connected_sender := model;
           dispatch_uid := uid |} ]).

(** The argument of [register] and [unregister]: a model class, or an
    iterable of model classes. *)
Inductive model_or_iterable :=
| a_model (model : ModelBase)
| some_models (models : list ModelBase).

(** [if isinstance(model_or_iterable, ModelBase): model_or_iterable =
    [model_or_iterable]]. *)
Definition as_iterable (arg : model_or_iterable) : list ModelBase :=
  match arg with
  | a_model model => [model]
  | some_models models => models
  end.

(** The loop of [register]: the dictionary [_registry] and the connections
    made so far are returned with the exception that ended the loop, if
    any. *)
Fixpoint register_loop (models : list ModelBase) (allow_existing : bool)
    (_registry : gmap ModelBase ModelChanges) (connected : list connection)
    : gmap ModelBase ModelChanges * list connection * option registry_error :=
  match models with
  | [] => (_registry, connected, None)
  | model :: rest =>
      if abstract model then
        (_registry, connected,
         Some (ImproperlyConfigured
                 ("The model " +:+ __name__ model
                  +:+ " is abstract, so it cannot be registered with model changes.")))
      else if bool_decide (is_Some (_registry !! model))
              && negb allow_existing then
        (_registry, connected,
         Some (AlreadyRegistered
                 ("The model " +:+ __name__ model
                  +:+ " is already registered")))
      else
        let created := ModelChanges__init__ model connected in
        register_loop rest allow_existing
          (<[model := created.1]> _registry) created.2
  end.

Definition register (arg : model_or_iterable) (allow_existing : bool)
    (_registry : gmap ModelBase ModelChanges) (connected : list connection)
    : gmap ModelBase ModelChanges * list connection * option registry_error :=
  register_loop (as_iterable arg) allow_existing _registry connected.

(** The loop of [unregister]. *)
Fixpoint unregister_loop (models : list ModelBase)
    (_registry : gmap ModelBase ModelChanges)
    : gmap ModelBase ModelChanges * option registry_error :=
  match models with
  | [] => (_registry, None)
  | model :: rest =>
      if bool_decide (is_Some (_registry !! model)) then
        unregister_loop rest (delete model _registry)
      else
        (_registry,
         Some (NotRegistered
                 ("The model " +:+ __name__ model +:+ " is not registered")))
  end.

Definition unregister (arg : model_or_iterable)
    (_registry : gmap ModelBase ModelChanges)
    : gmap ModelBase ModelChanges * option registry_error :=
  unregister_loop (as_iterable arg) _registry.

(** ** Writes to the tracked instance *)

(** User code (or the ORM) writing a plain attribute of the tracked
    instance, and deleting one; the tracker is not told. *)
Definition assign (self : InstanceChanges) (a : string) (v : value)
    : InstanceChanges :=
  {| instance := set_attribute (instance self) a v;
     _states := _states self |}.

Definition unassign (self : InstanceChanges) (a : string)
    : InstanceChanges :=
  {| instance := del_attribute (instance self) a;
     _states := _states self |}.

(** What happens to a tracked instance after its construction: writes,
    and save or delete events delivered to the tracker. *)
Inductive action :=
| write (a : string) (v : value)
| erase (a : string)
| capture (event_type : value).

Fixpoint run (actions : list action) (self : InstanceChanges)
    (sent : list post_change_call)
    : result (InstanceChanges * list post_change_call) :=
  match actions with
  | [] => Ok (self, sent)
  | write a v :: rest => run rest (assign self a v) sent
  | erase a :: rest => run rest (unassign self a) sent
  | capture event_type :: rest =>
      r ← _save_state false event_type self sent;
      run rest r.1 r.2
  end.

(** The number of save and delete events among the actions. *)
Fixpoint captures (actions : list action) : nat :=
  match actions with
  | [] => 0
  | capture _ :: rest => S (captures rest)
  | _ :: rest => captures rest
  end.

(** The life of a tracked instance: [__init__], then the actions. *)
Definition lifecycle (m : Model) (actions : list action)
    : result (InstanceChanges * list post_change_call) :=
  r ← __init__ m [];
  run actions r.1 r.2.

(** ** Well-formed classes and coherent states *)

(** The relations among the local fields of a class. *)
Definition relations (cls : Options) : list Field :=
  filter (λ f, rel f = true) (local_fields cls).

(** In a model class the attribute names of the fields, the names of the
    relations and the names of their caches are all different. *)
Definition wf_options (cls : Options) : Prop :=
  NoDup ((attname <$> local_fields cls)
         ++ (name <$> relations cls)
         ++ (cache_name <$> relations cls)).

(** A state read from some instance of the class. *)
Definition captured (cls : Options) (state : gmap string value) : Prop :=
  ∃ m, _meta m = cls ∧ read_fields m (local_fields cls) ∅ = Ok state.

(** The object [v] cached for a relation agrees with the value the state
    holds under the relation's [attname]: either the object is [None], on
    a nullable relation whose [attname] holds [None], or it is a model
    instance whose primary key the [attname] holds. *)
Definition related_agrees (field : Field) (state : gmap string value)
    (v : value) : Prop :=
  match v with
  | VNone => null field = true ∧ state !! attname field = Some VNone
  | VObj _ opk => state !! attname field = Some (pk_value opk)
  | _ => False
  end.

Definition coherent (cls : Options) (state : gmap string value) : Prop :=
  ∀ field v,
    field ∈ local_fields cls → rel field = true →
    state !! name field = Some v → related_agrees field state v.

(** ** Two model classes used in the scenarios *)

Module Scenario.

Definition id_field : Field :=
  {| attname := "id"; name := "id"; rel := false; cache_name := "";
     null := false; get_default := VNone |}.

Definition name_field : Field :=
  {| attname := "name"; name := "name"; rel := false; cache_name := "";
     null := false; get_default := VStr "" |}.

Definition author_field : Field :=
  {| attname := "author_id"; name := "author"; rel := true;
     cache_name := "_author_cache"; null := false; get_default := VNone |}.

(** [class User(Model): name = CharField()]. *)
Definition User : Options :=
  {| local_fields := [id_field; name_field]; pk := id_field |}.

(** [class Book(Model): author = ForeignKey(Author)]. *)
Definition Book : Options :=
  {| local_fields := [id_field; author_field]; pk := id_field |}.

(** The attributes of a [User] with the given primary key and name; the
    state read from such an instance is the same dictionary. *)
Definition user_state (pk_ : value) (name_ : string) : gmap string value :=
  <["id" := pk_]> (<["name" := VStr name_]> ∅).

Definition user (pk_ : value) (name_ : string) : Model :=
  {| _meta := User; __dict__ := user_state pk_ name_ |}.

Definition book (pk_ author_id : value) : Model :=
  {| _meta := Book;
     __dict__ := <["id" := pk_]> (<["author_id" := author_id]> ∅) |}.

(** A tracker of a [User] instance holding the given states. *)
Definition user_tracker (pk_ : value) (name_ : string)
    (states : list (gmap string value)) : InstanceChanges :=
  {| instance := user pk_ name_; _states := states |}.

(** The call of [post_change.send] made by a tracker of a [User]. *)
Definition user_call (self : InstanceChanges) : post_change_call :=
  {| sender := User; sent_instance := instance self; sent_changes := self |}.

(** The three captures of a [User]: construction with no primary key and
    the name x, a save that assigns the key 1, and a save after the name
    was changed to y. *)
Definition three_captures : list action :=
  [write "id" (VInt 1); capture SAVE; write "name" (VStr "y"); capture SAVE].

Definition after_A : InstanceChanges :=
  user_tracker VNone "x" [user_state VNone "x"].

Definition after_B : InstanceChanges :=
  user_tracker (VInt 1) "x" [user_state VNone "x"; user_state (VInt 1) "x"].

Definition before_C : InstanceChanges :=
  user_tracker (VInt 1) "y" [user_state VNone "x"; user_state (VInt 1) "x"].

Definition after_C : InstanceChanges :=
  user_tracker (VInt 1) "y"
    [user_state (VInt 1) "x"; user_state (VInt 1) "y"].

(** A [User] with the primary key 5, tracked since its construction, and
    the tracker after a delete event. *)
Definition before_delete : InstanceChanges :=
  user_tracker (VInt 5) "x" [user_state (VInt 5) "x"].

Definition after_delete : InstanceChanges :=
  user_tracker VNone "x" [user_state (VInt 5) "x"; user_state VNone "x"].

(** A [User] constructed without a primary key and saved once with the
    key 7. *)
Definition saved_once : InstanceChanges :=
  user_tracker (VInt 7) "x" [user_state VNone "x"; user_state (VInt 7) "x"].

(** A related author with the primary key 3, and a [Book] whose relation
    cache holds [cached]. *)
Definition author : value := VObj 1 (Some 3%Z).

Definition book_cached (pk_ author_id cached : value) : Model :=
  {| _meta := Book;
     __dict__ := <["_author_cache" := cached]> (__dict__ (book pk_ author_id)) |}.

(** The state read from a [Book] without and with a cached author. *)
Definition book_state (pk_ author_id : value) : gmap string value :=
  <["id" := pk_]> (<["author_id" := author_id]> ∅).

Definition book_state_cached (pk_ author_id cached : value)
    : gmap string value :=
  <["author" := cached]> (book_state pk_ author_id).

(** A tracked [Book] whose [author_id] was set to 4 while the cache still
    holds the author with the primary key 3, saved twice since. *)
Definition stale_book_state : gmap string value :=
  book_state_cached (VInt 1) (VInt 4) author.

Definition stale_book : InstanceChanges :=
  {| instance := book_cached (VInt 1) (VInt 4) author;
     _states := [stale_book_state; stale_book_state] |}.

(** The instance that [old_instance] builds from that state. *)
Definition rebuilt_book : Model :=
  book_cached (VInt 1) (VInt 3) author.

(** A tracked [Book] whose relation, which is not nullable, has [None] in
    its cache. *)
Definition unset_book : InstanceChanges :=
  {| instance := book_cached VNone VNone VNone;
     _states := [book_state_cached VNone VNone VNone] |}.

(** A tracked [Book] whose author was cached when it was constructed. *)
Definition cached_book : InstanceChanges :=
  {| instance := book_cached (VInt 1) (VInt 3) author;
     _states := [book_state_cached (VInt 1) (VInt 3) author] |}.

End Scenario.

(** ** Model classes used with the registry *)

Module Models.

Definition User : ModelBase :=
  {| __name__ := "User"; label := "auth.user"; abstract := false |}.

Definition Book : ModelBase :=
  {| __name__ := "Book"; label := "library.book"; abstract := false |}.

Definition Base : ModelBase :=
  {| __name__ := "Base"; label := "library.base"; abstract := true |}.

End Models.

(** * Reading the fields of an instance *)

Section ReadFields.

Variable m : Model.

Lemma read_fields_cons field rest fields v :
  __dict__ m !! attname field = Some v →
  read_fields m (field :: rest) fields =
    read_fields m rest (read_field m field v fields).
Proof. intros Hv. simpl. unfold getattr. by rewrite Hv. Qed.

Lemma read_fields_cons_Raise field rest fields :
  __dict__ m !! attname field = None →
  read_fields m (field :: rest) fields = Raise AttributeError.
Proof. intros Hv. simpl. unfold getattr. by rewrite Hv. Qed.

(** Reading succeeds exactly when every field's [attname] is an attribute
    of the instance, and fails with [AttributeError] otherwise. *)
Lemma read_fields_Ok fs : ∀ fields,
  Forall (λ f, is_Some (__dict__ m !! attname f)) fs →
  ∃ state, read_fields m fs fields = Ok state.
Proof.
  induction fs as [|field rest IH]; intros fields Hall.
  - by exists fields.
  - apply Forall_cons in Hall as [[v Hv] Hrest].
    rewrite (read_fields_cons _ _ _ _ Hv). by apply IH.
Qed.

Lemma read_fields_Ok_inv fs : ∀ fields state,
  read_fields m fs fields = Ok state →
  Forall (λ f, is_Some (__dict__ m !! attname f)) fs.
Proof.
  induction fs as [|field rest IH]; intros fields state Hread; [done|].
  destruct (__dict__ m !! attname field) as [v|] eqn:Hv.
  - rewrite (read_fields_cons _ _ _ _ Hv) in Hread.
    apply Forall_cons. split; [by rewrite Hv | by eapply IH].
  - by rewrite (read_fields_cons_Raise _ _ _ Hv) in Hread.
Qed.

Lemma read_fields_Raise fs : ∀ fields e,
  read_fields m fs fields = Raise e → e = AttributeError.
Proof.
  induction fs as [|field rest IH]; intros fields e Hread; [done|].
  destruct (__dict__ m !! attname field) as [v|] eqn:Hv.
  - rewrite (read_fields_cons _ _ _ _ Hv) in Hread. by eapply IH.
  - rewrite (read_fields_cons_Raise _ _ _ Hv) in Hread. congruence.
Qed.

(** A key that no relation of [fs] is named after holds the attribute of
    that name, when it is an [attname] of [fs]. *)
Lemma read_fields_lookup_attname fs : ∀ fields state k,
  read_fields m fs fields = Ok state →
  (∀ f, f ∈ fs → rel f = true → name f ≠ k) →
  state !! k =
    if decide (k ∈ attname <$> fs) then __dict__ m !! k else fields !! k.
Proof.
  induction fs as [|field rest IH]; intros fields state k Hread Hname.
  - simpl in *. by injection Hread as <-.
  - destruct (__dict__ m !! attname field) as [v|] eqn:Hv;
      [|by rewrite (read_fields_cons_Raise _ _ _ Hv) in Hread].
    rewrite (read_fields_cons _ _ _ _ Hv) in Hread.
    rewrite (IH _ _ k Hread) by (intros; apply Hname; set_solver).
    assert (Hstep : read_field m field v fields !! k =
                    if decide (k = attname field) then Some v else fields !! k).
    { unfold read_field.
      assert (Hrel : rel field = true → name field ≠ k)
        by (intros; apply Hname; set_solver).
      destruct (rel field); [|by rewrite lookup_insert; repeat case_decide; simplify_eq].
      destruct (__dict__ m !! cache_name field);
        [rewrite lookup_insert_ne by auto|];
        by rewrite lookup_insert; repeat case_decide; simplify_eq. }
    rewrite Hstep. rewrite fmap_cons.
    destruct (decide (k ∈ attname <$> rest)) as [Hin|Hin].
    + rewrite decide_True by (apply elem_of_cons; auto). done.
    + destruct (decide (k = attname field)) as [->|Hne].
      * rewrite decide_True by (apply elem_of_cons; auto). done.
      * rewrite decide_False by (intros [?|?]%elem_of_cons; done). done.
Qed.

(** A key that is no [attname] of [fs], and that the relations of [fs]
    named after it cache under [c], holds the cached object. *)
Lemma read_fields_lookup_name fs : ∀ fields state k c,
  read_fields m fs fields = Ok state →
  (∀ f, f ∈ fs → attname f ≠ k) →
  (∀ f, f ∈ fs → rel f = true → name f = k → cache_name f = c) →
  state !! k =
    if existsb (λ f, rel f && bool_decide (name f = k)) fs
    then match __dict__ m !! c with
         | Some cached => Some cached
         | None => fields !! k
         end
    else fields !! k.
Proof.
  induction fs as [|field rest IH]; intros fields state k c Hread Hatt Hcache.
  - simpl in *. by injection Hread as <-.
  - destruct (__dict__ m !! attname field) as [v|] eqn:Hv;
      [|by rewrite (read_fields_cons_Raise _ _ _ Hv) in Hread].
    rewrite (read_fields_cons _ _ _ _ Hv) in Hread.
    rewrite (IH _ _ k c Hread)
      by (intros; first [apply Hatt | apply Hcache]; set_solver).
    assert (Hne : attname field ≠ k) by (apply Hatt; set_solver).
    assert (Hstep : read_field m field v fields !! k =
              if rel field && bool_decide (name field = k)
              then match __dict__ m !! c with
                   | Some cached => Some cached
                   | None => fields !! k
                   end
              else fields !! k).
    { unfold read_field. destruct (rel field) eqn:Hrel; simpl;
        [|by rewrite lookup_insert_ne].
      case_bool_decide as Hk.
      - rewrite (Hcache field) by (done || set_solver).
        destruct (__dict__ m !! c).
        + subst k. by rewrite lookup_insert_eq.
        + by rewrite lookup_insert_ne.
      - destruct (__dict__ m !! cache_name field).
        + rewrite lookup_insert_ne by done. by rewrite lookup_insert_ne.
        + by rewrite lookup_insert_ne. }
    simpl. rewrite Hstep.
    destruct (rel field && bool_decide (name field = k)); simpl;
      destruct (existsb _ rest); try done.
    by destruct (__dict__ m !! c).
Qed.

End ReadFields.

(** * The snapshot history *)

Section History.

Implicit Types (self : InstanceChanges) (sent : list post_change_call).
Implicit Types (state : gmap string value) (states : list (gmap string value)).

Lemma push_length states state :
  length (push states state) =
    if bool_decide (2 ≤ length states) then length states
    else S (length states).
Proof.
  unfold push. rewrite length_app. simpl.
  destruct states as [|a states]; simpl; [done|].
  repeat case_bool_decide; simpl; rewrite ?length_app; simpl; lia.
Qed.

Lemma push_bounded states state :
  length states ≤ 2 → 1 ≤ length (push states state) ≤ 2.
Proof. rewrite push_length. case_bool_decide; lia. Qed.

Lemma push_full a b state : push [a; b] state = [b; state].
Proof. reflexivity. Qed.

Lemma push_last states state :
  last (push states state) = Some state.
Proof.
  unfold push. simpl. case_bool_decide.
  - destruct states as [|a states]; simpl in *; [lia|].
    apply last_snoc.
  - apply last_snoc.
Qed.

(** [_save_state] fails only when reading the fields fails. *)
Lemma _save_state_Ok new_instance event_type self sent state :
  current_state (clear_pk_on_delete event_type self) = Ok state →
  _save_state new_instance event_type self sent =
    Ok ({| instance := instance (clear_pk_on_delete event_type self);
           _states := push (_states self) state |},
        if negb new_instance
        then sent ++
             [ {| sender := _meta (instance (clear_pk_on_delete event_type self));
                  sent_instance := instance (clear_pk_on_delete event_type self);
                  sent_changes :=
                    {| instance := instance (clear_pk_on_delete event_type self);
                       _states := push (_states self) state |} |} ]
        else sent).
Proof.
  intros Hcur. unfold _save_state. rewrite Hcur. simpl.
  replace (_states (clear_pk_on_delete event_type self)) with (_states self)
    by (unfold clear_pk_on_delete; by destruct (py_eq _ _)).
  done.
Qed.

Lemma _save_state_Raise new_instance event_type self sent e :
  current_state (clear_pk_on_delete event_type self) = Raise e →
  _save_state new_instance event_type self sent = Raise e.
Proof. intros Hcur. unfold _save_state. by rewrite Hcur. Qed.

Lemma _save_state_inv new_instance event_type self sent self' sent' :
  _save_state new_instance event_type self sent = Ok (self', sent') →
  ∃ state,
    current_state (clear_pk_on_delete event_type self) = Ok state
    ∧ instance self' = instance (clear_pk_on_delete event_type self)
    ∧ _states self' = push (_states self) state
    ∧ sent' = (if negb new_instance
               then sent ++ [ {| sender := _meta (instance self');
                                 sent_instance := instance self';
                                 sent_changes := self' |} ]
               else sent).
Proof.
  intros Hsave.
  destruct (current_state (clear_pk_on_delete event_type self)) as [state|e] eqn:Hcur.
  - rewrite (_save_state_Ok _ _ _ _ _ Hcur) in Hsave.
    injection Hsave as <- <-. by exists state.
  - by rewrite (_save_state_Raise _ _ _ _ _ Hcur) in Hsave.
Qed.

Lemma run_bounded actions : ∀ self sent self' sent',
  run actions self sent = Ok (self', sent') →
  1 ≤ length (_states self) ≤ 2 →
  1 ≤ length (_states self') ≤ 2.
Proof.
  induction actions as [|[a v|a|event_type] actions IH];
    intros self sent self' sent' Hrun Hlen; simpl in Hrun.
  - by injection Hrun as <- <-.
  - by apply (IH _ _ _ _ Hrun).
  - by apply (IH _ _ _ _ Hrun).
  - destruct (_save_state false event_type self sent) as [[self1 sent1]|e] eqn:Hsave;
      [|done].
    simpl in Hrun. apply (IH _ _ _ _ Hrun).
    apply _save_state_inv in Hsave as (state & _ & _ & -> & _).
    apply push_bounded. lia.
Qed.

Lemma lifecycle_bounded m actions self sent :
  lifecycle m actions = Ok (self, sent) →
  1 ≤ length (_states self) ≤ 2.
Proof.
  unfold lifecycle, __init__. intros Hlife.
  destruct (_save_state true _ _ _) as [[self0 sent0]|e] eqn:Hinit; [|done].
  simpl in Hlife. apply (run_bounded _ _ _ _ _ Hlife).
  apply _save_state_inv in Hinit as (state & _ & _ & -> & _).
  apply push_bounded. simpl. lia.
Qed.

Lemma run_sent actions : ∀ self sent self' sent',
  run actions self sent = Ok (self', sent') →
  length sent' = length sent + captures actions.
Proof.
  induction actions as [|[a v|a|event_type] actions IH];
    intros self sent self' sent' Hrun; simpl in Hrun.
  - injection Hrun as <- <-. simpl. lia.
  - by apply (IH _ _ _ _ Hrun).
  - by apply (IH _ _ _ _ Hrun).
  - destruct (_save_state false event_type self sent) as [[self1 sent1]|e] eqn:Hsave;
      [|done].
    simpl in Hrun. rewrite (IH _ _ _ _ Hrun).
    apply _save_state_inv in Hsave as (state & _ & _ & _ & ->).
    simpl. rewrite length_app. simpl. lia.
Qed.

Lemma lifecycle_sent m actions self sent :
  lifecycle m actions = Ok (self, sent) →
  length sent = captures actions.
Proof.
  unfold lifecycle, __init__. intros Hlife.
  destruct (_save_state true _ _ _) as [[self0 sent0]|e] eqn:Hinit; [|done].
  simpl in Hlife. rewrite (run_sent _ _ _ _ _ Hlife).
  by apply _save_state_inv in Hinit as (state & _ & _ & _ & ->).
Qed.

End History.

Section Captures.

Implicit Types (self : InstanceChanges) (sent : list post_change_call).
Implicit Types (state : gmap string value) (states : list (gmap string value)).

(** C4. After the construction and any sequence of writes and captures
    the history holds one or two states; a push onto one or two states
    leaves at most two; a push onto two states drops the oldest and keeps
    the other one followed by the new state; and a capture whose reading
    of the fields succeeds always succeeds, with the new state pushed. *)
Theorem history_at_most_two :
  (∀ m actions self sent,
      lifecycle m actions = Ok (self, sent) →
      1 ≤ length (_states self) ≤ 2)
  ∧ (∀ states state,
      length states ≤ 2 → length (push states state) ≤ 2)
  ∧ (∀ a b state, push [a; b] state = [b; state])
  ∧ (∀ new_instance event_type self sent state,
      current_state (clear_pk_on_delete event_type self) = Ok state →
      ∃ self' sent',
        _save_state new_instance event_type self sent = Ok (self', sent')
        ∧ _states self' = push (_states self) state).
Proof.
  split; [|split; [|split]].
  - apply lifecycle_bounded.
  - intros states state Hlen. by apply push_bounded.
  - apply push_full.
  - intros new_instance event_type self sent state Hcur.
    rewrite (_save_state_Ok _ _ _ _ _ Hcur). by eexists _, _.
Qed.

Lemma history_at_most_two_witness :
  lifecycle (Scenario.user VNone "x") Scenario.three_captures =
    Ok (Scenario.after_C,
        [Scenario.user_call Scenario.after_B;
         Scenario.user_call Scenario.after_C])
  ∧ 1 ≤ length (_states Scenario.after_C) ≤ 2.
Proof.
  assert (Hlife : lifecycle (Scenario.user VNone "x") Scenario.three_captures =
    Ok (Scenario.after_C,
        [Scenario.user_call Scenario.after_B;
         Scenario.user_call Scenario.after_C]))
    by (vm_compute; reflexivity).
  split; [exact Hlife|].
  exact (proj1 history_at_most_two _ _ _ _ Hlife).
Defined.

(** C6. [__init__] sends nothing; a capture made with
    [new_instance=False], whatever the event, sends [post_change] exactly
    once, with the instance and the tracker, and the tracker it sends
    already holds the state just read as its last state; hence after any
    life of an instance as many calls were sent as captures followed the
    construction. *)
Theorem post_change_sent_once_per_capture :
  (∀ m sent self sent', __init__ m sent = Ok (self, sent') → sent' = sent)
  ∧ (∀ event_type self sent self' sent',
      _save_state false event_type self sent = Ok (self', sent') →
      ∃ state,
        current_state (clear_pk_on_delete event_type self) = Ok state
        ∧ last (_states self') = Some state
        ∧ sent' = sent ++ [ {| sender := _meta (instance self');
                               sent_instance := instance self';
                               sent_changes := self' |} ])
  ∧ (∀ m actions self sent,
      lifecycle m actions = Ok (self, sent) →
      length sent = captures actions).
Proof.
  split; [|split].
  - intros m sent self sent' Hinit.
    by apply _save_state_inv in Hinit as (state & _ & _ & _ & ->).
  - intros event_type self sent self' sent' Hsave.
    apply _save_state_inv in Hsave as (state & Hcur & _ & Hstates & ->).
    exists state. split; [done|]. split; [|done].
    rewrite Hstates. apply push_last.
  - intros m actions self sent Hlife.
    apply lifecycle_sent in Hlife. done.
Qed.

Lemma post_change_sent_once_per_capture_witness :
  _save_state false SAVE (assign Scenario.after_A "id" (VInt 1)) [] =
    Ok (Scenario.after_B, [Scenario.user_call Scenario.after_B])
  ∧ ∃ state,
      current_state
        (clear_pk_on_delete SAVE (assign Scenario.after_A "id" (VInt 1))) =
        Ok state
      ∧ last (_states Scenario.after_B) = Some state
      ∧ [Scenario.user_call Scenario.after_B] =
          [] ++ [ {| sender := _meta (instance Scenario.after_B);
                     sent_instance := instance Scenario.after_B;
                     sent_changes := Scenario.after_B |} ].
Proof.
  assert (Hsave :
    _save_state false SAVE (assign Scenario.after_A "id" (VInt 1)) [] =
      Ok (Scenario.after_B, [Scenario.user_call Scenario.after_B]))
    by (vm_compute; reflexivity).
  split; [exact Hsave|].
  exact (proj1 (proj2 post_change_sent_once_per_capture) _ _ _ _ _ Hsave).
Defined.

(** C8 (amended). With an empty history [previous_state] and [old_state]
    raise [IndexError], while [current_state], which reads the instance
    and not the history, returns a state as soon as the instance has an
    attribute for every field. *)
Theorem empty_history_queries self :
  _states self = [] →
  Forall (λ f, is_Some (__dict__ (instance self) !! attname f))
    (local_fields (_meta (instance self))) →
  previous_state self = Raise IndexError
  ∧ old_state self = Raise IndexError
  ∧ ∃ state, current_state self = Ok state.
Proof.
  intros Hempty Hattrs. unfold previous_state, old_state. rewrite Hempty.
  repeat split. by apply read_fields_Ok.
Qed.

Lemma empty_history_queries_witness :
  previous_state (Scenario.user_tracker (VInt 5) "x" []) = Raise IndexError
  ∧ old_state (Scenario.user_tracker (VInt 5) "x" []) = Raise IndexError
  ∧ ∃ state, current_state (Scenario.user_tracker (VInt 5) "x" []) = Ok state.
Proof.
  apply empty_history_queries; [reflexivity|].
  repeat constructor; by eexists.
Defined.

(** C8, as stated, fails: on an empty history [current_state] returns the
    fields of the instance. *)
Lemma current_state_of_empty_history :
  _states (Scenario.user_tracker (VInt 5) "x" []) = []
  ∧ current_state (Scenario.user_tracker (VInt 5) "x" []) =
      Ok (Scenario.user_state (VInt 5) "x").
Proof. split; [reflexivity | vm_compute; reflexivity]. Qed.

(** C1 (amended). [previous_state], [old_state] and [previous_changes]
    read the history only: they are the same whatever the instance holds.
    [current_state] reads the instance only: it is the same whatever the
    history holds.  Right after a capture the state just pushed is at once
    the last state of the history, [previous_state] and (until the
    instance is written to) [current_state]. *)
Theorem queries_of_history_and_of_instance :
  (∀ self m,
      previous_state {| instance := m; _states := _states self |} =
        previous_state self
      ∧ old_state {| instance := m; _states := _states self |} =
          old_state self
      ∧ previous_changes {| instance := m; _states := _states self |} =
          previous_changes self)
  ∧ (∀ self states,
      current_state {| instance := instance self; _states := states |} =
        current_state self)
  ∧ (∀ new_instance event_type self sent self' sent',
      length (_states self) ≤ 2 →
      _save_state new_instance event_type self sent = Ok (self', sent') →
      ∃ state,
        last (_states self') = Some state
        ∧ previous_state self' = Ok state
        ∧ current_state self' = Ok state).
Proof.
  split; [|split].
  - done.
  - done.
  - intros new_instance event_type self sent self' sent' Hlen Hsave.
    apply _save_state_inv in Hsave as (state & Hcur & Hinst & Hstates & _).
    exists state. split; [rewrite Hstates; apply push_last|]. split.
    + unfold previous_state. rewrite Hstates.
      destruct (_states self) as [|a [|b [|c states]]]; simpl in *;
        try done; lia.
    + unfold current_state in *. by rewrite Hinst.
Qed.

Lemma queries_of_history_and_of_instance_witness :
  _save_state false SAVE (assign Scenario.after_A "id" (VInt 1)) [] =
    Ok (Scenario.after_B, [Scenario.user_call Scenario.after_B])
  ∧ ∃ state,
      last (_states Scenario.after_B) = Some state
      ∧ previous_state Scenario.after_B = Ok state
      ∧ current_state Scenario.after_B = Ok state.
Proof.
  assert (Hsave :
    _save_state false SAVE (assign Scenario.after_A "id" (VInt 1)) [] =
      Ok (Scenario.after_B, [Scenario.user_call Scenario.after_B]))
    by (vm_compute; reflexivity).
  split; [exact Hsave|].
  refine (proj2 (proj2 queries_of_history_and_of_instance) _ _ _ _ _ _ _ Hsave).
  simpl. lia.
Defined.

(** C1, as stated, fails: a write to the instance after a capture changes
    [current_state], which no longer is the state last pushed, and changes
    [changes]. *)
Lemma current_state_rereads_the_instance :
  __init__ (Scenario.user VNone "x") [] = Ok (Scenario.after_A, [])
  ∧ _states (assign Scenario.after_A "name" (VStr "y")) =
      [Scenario.user_state VNone "x"]
  ∧ current_state Scenario.after_A = Ok (Scenario.user_state VNone "x")
  ∧ current_state (assign Scenario.after_A "name" (VStr "y")) =
      Ok (Scenario.user_state VNone "y")
  ∧ Scenario.user_state VNone "y" ≠ Scenario.user_state VNone "x"
  ∧ changes Scenario.after_A = Ok ∅
  ∧ changes (assign Scenario.after_A "name" (VStr "y")) =
      Ok {[ "name" := (VStr "x", VStr "y") ]}.
Proof.
  repeat split; try (vm_compute; reflexivity).
  intros Heq. apply (f_equal (λ d, d !! "name")) in Heq.
  vm_compute in Heq. discriminate.
Qed.

End Captures.

(** * Diffs of two states *)

Section Diffs.

Implicit Types (other current : gmap string value).
Implicit Types (items : list (string * value)).

Lemma dict_lookup_acc {A} (pairs : list (string * A)) : ∀ (acc : gmap string A) k,
  NoDup pairs.*1 →
  fold_left (λ d p, <[p.1 := p.2]> d) pairs acc !! k =
    match (list_to_map pairs : gmap string A) !! k with
    | Some v => Some v
    | None => acc !! k
    end.
Proof.
  induction pairs as [|[k' v'] pairs IH]; intros acc k Hnodup; simpl.
  - by rewrite lookup_empty.
  - apply NoDup_cons in Hnodup as [Hfresh Hnodup].
    rewrite IH by done.
    destruct (decide (k' = k)) as [->|Hne].
    + rewrite !lookup_insert_eq.
      by rewrite (not_elem_of_list_to_map_1 _ _ Hfresh).
    + rewrite !lookup_insert_ne by done. done.
Qed.

(** On pairs with distinct keys [dict] holds exactly the pairs. *)
Lemma dict_lookup {A} (pairs : list (string * A)) k v :
  NoDup pairs.*1 →
  dict pairs !! k = Some v ↔ (k, v) ∈ pairs.
Proof.
  intros Hnodup. unfold dict. rewrite dict_lookup_acc by done.
  rewrite lookup_empty. rewrite elem_of_list_to_map by done.
  by destruct (list_to_map pairs !! k).
Qed.

(** The comprehension fails on the first item whose key [current] lacks. *)
Lemma changed_items_Raise items current : ∀ e,
  changed_items items current = Raise e → 
  e = KeyError ∧ ∃ k was, (k, was) ∈ items ∧ current !! k = None.
Proof.
  induction items as [|[k was] items IH]; intros e Hraise; simpl in Hraise;
    [done|].
  unfold getitem in Hraise.
  destruct (current !! k) as [now|] eqn:Hnow; simpl in Hraise.
  - destruct (changed_items items current) as [kept|e'] eqn:Hrest;
      simpl in Hraise; [done|].
    injection Hraise as <-.
    destruct (IH _ eq_refl) as (-> & k' & was' & Hin & Hnone).
    split; [done|]. exists k', was'. split; [|done].
    apply elem_of_cons. by right.
  - injection Hraise as <-. split; [done|]. exists k, was.
    split; [|done]. apply elem_of_cons. by left.
Qed.

(** When it returns, it returns the items whose value differs, paired
    with the value of [current]. *)
Lemma changed_items_Ok items current : ∀ kept,
  changed_items items current = Ok kept →
  (∀ k was, (k, was) ∈ items → is_Some (current !! k))
  ∧ (∀ k, k ∈ kept.*1 → k ∈ items.*1)
  ∧ (∀ k was now,
      (k, (was, now)) ∈ kept ↔
      (k, was) ∈ items ∧ current !! k = Some now ∧ py_ne was now = true).
Proof.
  induction items as [|[k was] items IH]; intros kept Hok; simpl in Hok.
  - injection Hok as <-. split; [|split].
    + intros k was Hin. by apply elem_of_nil in Hin.
    + done.
    + intros k was now. split; [intros Hin | intros [Hin _]];
        by apply elem_of_nil in Hin.
  - unfold getitem in Hok.
    destruct (current !! k) as [now|] eqn:Hnow; simpl in Hok; [|done].
    destruct (changed_items items current) as [kept'|e'] eqn:Hrest;
      simpl in Hok; [|done].
    injection Hok as <-.
    destruct (IH _ eq_refl) as (Hdom & Hkeys & Hkept).
    split; [|split].
    + intros k' was' [Heq|Hin]%elem_of_cons; [|by eapply Hdom].
      injection Heq as -> ->. by rewrite Hnow.
    + intros k' Hin. rewrite fmap_cons. simpl. apply elem_of_cons.
      destruct (py_ne was now); [|right; by apply Hkeys].
      rewrite fmap_cons in Hin. simpl in Hin.
      apply elem_of_cons in Hin as [->|Hin]; [by left|].
      right. by apply Hkeys.
    + intros k' was' now'. rewrite elem_of_cons.
      destruct (py_ne was now) eqn:Hne.
      * rewrite elem_of_cons, Hkept. split.
        -- intros [Heq|(Hin & Hcur & Hdiff)]; [|by auto].
           injection Heq as -> -> ->. auto.
        -- intros ([Heq|Hin] & Hcur & Hdiff); [|by auto].
           injection Heq as -> ->. left. congruence.
      * rewrite Hkept. split.
        -- intros (Hin & Hcur & Hdiff). auto.
        -- intros ([Heq|Hin] & Hcur & Hdiff); [|by auto].
           injection Heq as -> ->. congruence.
Qed.

Lemma changed_items_total items current :
  (∀ k was, (k, was) ∈ items → is_Some (current !! k)) →
  ∃ kept, changed_items items current = Ok kept.
Proof.
  intros Hdom.
  destruct (changed_items items current) as [kept|e] eqn:Hitems;
    [by exists kept|].
  apply changed_items_Raise in Hitems as (_ & k & was & Hin & Hnone).
  destruct (Hdom _ _ Hin) as [now Hnow]. congruence.
Qed.

Lemma changed_items_NoDup items current : ∀ kept,
  changed_items items current = Ok kept →
  NoDup items.*1 → NoDup kept.*1.
Proof.
  induction items as [|[k was] items IH]; intros kept Hok Hnodup;
    simpl in Hok.
  - injection Hok as <-. constructor.
  - unfold getitem in Hok.
    destruct (current !! k) as [now|] eqn:Hnow; simpl in Hok; [|done].
    destruct (changed_items items current) as [kept'|e'] eqn:Hrest;
      simpl in Hok; [|done].
    injection Hok as <-.
    rewrite fmap_cons in Hnodup. apply NoDup_cons in Hnodup as [Hfresh Hnodup].
    specialize (IH _ eq_refl Hnodup).
    destruct (py_ne was now); [|done].
    rewrite fmap_cons. apply NoDup_cons. split; [|done].
    intros Hin. apply Hfresh.
    by apply (proj1 (proj2 (changed_items_Ok _ _ _ Hrest))).
Qed.

(** [_changes] returns exactly when every key of [other] is a key of
    [current]. *)
Lemma _changes_total other current :
  dom other ⊆ dom current →
  ∃ d, _changes other current = Ok d.
Proof.
  intros Hdom. unfold _changes.
  destruct (changed_items_total (map_to_list other) current) as [kept ->].
  - intros k was Hin%elem_of_map_to_list.
    apply elem_of_dom, Hdom, elem_of_dom. by rewrite Hin.
  - by eexists.
Qed.

Lemma _changes_Raise other current e :
  _changes other current = Raise e →
  e = KeyError ∧ ∃ k, k ∈ dom other ∧ k ∉ dom current.
Proof.
  unfold _changes. intros Hraise.
  destruct (changed_items (map_to_list other) current) as [kept|e'] eqn:Hitems;
    [done|].
  injection Hraise as <-.
  apply changed_items_Raise in Hitems as (-> & k & was & Hin & Hnone).
  split; [done|]. exists k. split.
  - apply elem_of_map_to_list in Hin. apply elem_of_dom. by rewrite Hin.
  - by apply not_elem_of_dom.
Qed.

Lemma _changes_Ok_dom other current d :
  _changes other current = Ok d → dom other ⊆ dom current.
Proof.
  unfold _changes. intros Hok.
  destruct (changed_items (map_to_list other) current) as [kept|e'] eqn:Hitems;
    [|done].
  apply changed_items_Ok in Hitems as (Hdom & _).
  intros k [was Hwas]%elem_of_dom.
  apply elem_of_dom. eapply Hdom. by apply elem_of_map_to_list.
Qed.

(** The diff holds a key exactly when it is a key of [other] whose value
    differs in [current], with the two values. *)
Lemma _changes_lookup other current d k was now :
  _changes other current = Ok d →
  d !! k = Some (was, now) ↔
  other !! k = Some was ∧ current !! k = Some now ∧ py_ne was now = true.
Proof.
  unfold _changes. intros Hok.
  destruct (changed_items (map_to_list other) current) as [kept|e'] eqn:Hitems;
    [|done].
  injection Hok as <-.
  rewrite dict_lookup
    by (eapply changed_items_NoDup; [done | apply NoDup_fst_map_to_list]).
  apply changed_items_Ok in Hitems as (_ & _ & Hkept).
  rewrite Hkept. by rewrite elem_of_map_to_list.
Qed.

End Diffs.

Section DiffQueries.

Implicit Types (self : InstanceChanges) (sent : list post_change_call).
Implicit Types (other current previous old : gmap string value).

Lemma py_eq_refl v : py_eq v v = true.
Proof.
  destruct v as [| [] | n | s | oid opk]; simpl;
    rewrite ?bool_decide_true by done; done.
Qed.

(** A state does not differ from itself. *)
Lemma _changes_same current : _changes current current = Ok ∅.
Proof.
  destruct (_changes_total current current) as [d Hd]; [done|].
  rewrite Hd. f_equal. apply map_eq. intros k. rewrite lookup_empty.
  destruct (d !! k) as [[was now]|] eqn:Hk; [|done].
  apply (_changes_lookup _ _ _ _ _ _ Hd) in Hk as (Hwas & Hnow & Hne).
  rewrite Hwas in Hnow. injection Hnow as ->.
  unfold py_ne in Hne. by rewrite py_eq_refl in Hne.
Qed.

(** C5. When every key of [previous_state()] is a key of
    [current_state()], [changes()] returns a dictionary that maps a key to
    a pair exactly when the key is in the previous state, the pair is made
    of its values in the previous and in the current state, and the two
    differ; so the keys of the result are keys of the previous state, and
    a key with equal values is absent. *)
Theorem changes_holds_the_differing_keys self previous current :
  previous_state self = Ok previous →
  current_state self = Ok current →
  dom previous ⊆ dom current →
  ∃ d, changes self = Ok d
    ∧ (∀ k was now,
        d !! k = Some (was, now) ↔
        previous !! k = Some was ∧ current !! k = Some now
        ∧ py_ne was now = true)
    ∧ dom d ⊆ dom previous
    ∧ (∀ k was now,
        previous !! k = Some was → current !! k = Some now →
        py_ne was now = false → d !! k = None).
Proof.
  intros Hprev Hcur Hdom. unfold changes. rewrite Hprev, Hcur. simpl.
  destruct (_changes_total previous current Hdom) as [d Hd].
  exists d. split; [done|]. split; [|split].
  - intros k was now. by apply _changes_lookup.
  - intros k [[was now] Hk]%elem_of_dom.
    apply (_changes_lookup _ _ _ _ _ _ Hd) in Hk as (Hwas & _).
    apply elem_of_dom. by rewrite Hwas.
  - intros k was now Hwas Hnow Heq.
    destruct (d !! k) as [[was' now']|] eqn:Hk; [|done].
    apply (_changes_lookup _ _ _ _ _ _ Hd) in Hk as (Hwas' & Hnow' & Hne).
    congruence.
Qed.

Lemma changes_holds_the_differing_keys_witness :
  ∃ d, changes Scenario.before_C = Ok d
    ∧ (∀ k was now,
        d !! k = Some (was, now) ↔
        Scenario.user_state (VInt 1) "x" !! k = Some was
        ∧ Scenario.user_state (VInt 1) "y" !! k = Some now
        ∧ py_ne was now = true)
    ∧ dom d ⊆ dom (Scenario.user_state (VInt 1) "x")
    ∧ (∀ k was now,
        Scenario.user_state (VInt 1) "x" !! k = Some was →
        Scenario.user_state (VInt 1) "y" !! k = Some now →
        py_ne was now = false → d !! k = None).
Proof.
  apply changes_holds_the_differing_keys.
  - reflexivity.
  - vm_compute. reflexivity.
  - refine (bool_decide_unpack _ _). vm_compute. exact I.
Defined.

(** C10. [_changes] returns when every key of the earlier state is a key
    of the later one and raises [KeyError] otherwise.  A relation's cached
    object is read under the field's name only while the cache is set: the
    state of a [Book] read with its author cached has the key author, the
    state read after the cache was dropped has not, and [changes] and
    [old_changes], which compare the saved state with that reading, raise
    [KeyError]; so does [previous_changes] once the second state is
    saved. *)
Theorem diff_needs_the_keys_of_the_earlier_state :
  (∀ other current,
      dom other ⊆ dom current → ∃ d, _changes other current = Ok d)
  ∧ (∀ other current,
      ¬ dom other ⊆ dom current → _changes other current = Raise KeyError)
  ∧ __init__ (Scenario.book_cached (VInt 1) (VInt 3) Scenario.author) [] =
      Ok (Scenario.cached_book, [])
  ∧ current_state Scenario.cached_book =
      Ok (Scenario.book_state_cached (VInt 1) (VInt 3) Scenario.author)
  ∧ current_state (unassign Scenario.cached_book "_author_cache") =
      Ok (Scenario.book_state (VInt 1) (VInt 3))
  ∧ ("author" ∈
       dom (Scenario.book_state_cached (VInt 1) (VInt 3) Scenario.author))
  ∧ ("author" ∉ dom (Scenario.book_state (VInt 1) (VInt 3)))
  ∧ changes (unassign Scenario.cached_book "_author_cache") = Raise KeyError
  ∧ old_changes (unassign Scenario.cached_book "_author_cache") =
      Raise KeyError
  ∧ (r ← _save_state false SAVE
            (unassign Scenario.cached_book "_author_cache") [];
     previous_changes r.1) = Raise KeyError.
Proof.
  split; [|split].
  - apply _changes_total.
  - intros other current Hdom.
    destruct (_changes other current) as [d|e] eqn:Hd.
    + destruct Hdom. by eapply _changes_Ok_dom.
    + by apply _changes_Raise in Hd as [-> _].
  - repeat split; try (vm_compute; reflexivity).
    refine (bool_decide_unpack _ _). vm_compute. exact I.
Qed.

Lemma diff_needs_the_keys_of_the_earlier_state_witness :
  _changes (Scenario.book_state_cached (VInt 1) (VInt 3) Scenario.author)
    (Scenario.book_state (VInt 1) (VInt 3)) = Raise KeyError.
Proof.
  apply (proj1 (proj2 diff_needs_the_keys_of_the_earlier_state)).
  intros Hdom. assert (Hsub := bool_decide_pack _ Hdom).
  vm_compute in Hsub. exact Hsub.
Defined.

(** C7. [was_persisted] is the truth value of the primary key held by
    [old_state()], [is_persisted] the truth value of the primary key of the
    instance itself; [None] is false and an integer is true exactly when
    it is not zero.  A [User] constructed without a primary key and saved
    once with the key 7 was not persisted and is persisted. *)
Theorem persisted_queries :
  (∀ self old v,
      old_state self = Ok old →
      old !! pk_attname (instance self) = Some v →
      was_persisted self = Ok (py_bool v))
  ∧ (∀ self v,
      __dict__ (instance self) !! pk_attname (instance self) = Some v →
      is_persisted self = Ok (py_bool v))
  ∧ py_bool VNone = false
  ∧ (∀ n, py_bool (VInt n) = true ↔ n ≠ 0%Z)
  ∧ lifecycle (Scenario.user VNone "x") [write "id" (VInt 7); capture SAVE] =
      Ok (Scenario.saved_once, [Scenario.user_call Scenario.saved_once])
  ∧ was_persisted Scenario.saved_once = Ok false
  ∧ is_persisted Scenario.saved_once = Ok true.
Proof.
  split; [|split; [|split; [|split]]].
  - intros self old v Hold Hv. unfold was_persisted, getitem.
    rewrite Hold. simpl. by rewrite Hv.
  - intros self v Hv. unfold is_persisted, get_pk, getattr. by rewrite Hv.
  - done.
  - intros n. simpl. rewrite negb_true_iff, bool_decide_eq_false. done.
  - repeat split; vm_compute; reflexivity.
Qed.

Lemma persisted_queries_witness :
  was_persisted Scenario.after_delete = Ok (py_bool (VInt 5)).
Proof.
  apply (proj1 persisted_queries Scenario.after_delete
           (Scenario.user_state (VInt 5) "x") (VInt 5));
    reflexivity.
Defined.

(** C3 (amended). After the construction (no primary key, name x), the
    save that assigns the key 1 and the change of the name to y,
    [old_changes] holds the key and the name, [previous_changes] the key
    and [changes] the name.  Once that change is saved too, the history
    holds the states of the two saves: [old_changes] and
    [previous_changes] hold the name only and [changes] is empty. *)
Theorem three_captures_diffs :
  lifecycle (Scenario.user VNone "x")
    [write "id" (VInt 1); capture SAVE; write "name" (VStr "y")] =
    Ok (Scenario.before_C, [Scenario.user_call Scenario.after_B])
  ∧ old_changes Scenario.before_C =
      Ok (<["id" := (VNone, VInt 1)]> {[ "name" := (VStr "x", VStr "y") ]})
  ∧ previous_changes Scenario.before_C = Ok {[ "id" := (VNone, VInt 1) ]}
  ∧ changes Scenario.before_C = Ok {[ "name" := (VStr "x", VStr "y") ]}
  ∧ lifecycle (Scenario.user VNone "x") Scenario.three_captures =
      Ok (Scenario.after_C,
          [Scenario.user_call Scenario.after_B;
           Scenario.user_call Scenario.after_C])
  ∧ _states Scenario.after_C =
      [Scenario.user_state (VInt 1) "x"; Scenario.user_state (VInt 1) "y"]
  ∧ old_changes Scenario.after_C =
      Ok {[ "name" := (VStr "x", VStr "y") ]}
  ∧ previous_changes Scenario.after_C =
      Ok {[ "name" := (VStr "x", VStr "y") ]}
  ∧ changes Scenario.after_C = Ok ∅.
Proof. repeat split; vm_compute; reflexivity. Qed.

(** C3, as stated, fails: after the third capture the state of the
    construction has left the history, so that neither [old_changes] nor
    [previous_changes] holds the primary key, and [changes] does not hold
    the name. *)
Lemma third_capture_drops_the_first :
  lifecycle (Scenario.user VNone "x") Scenario.three_captures =
    Ok (Scenario.after_C,
        [Scenario.user_call Scenario.after_B;
         Scenario.user_call Scenario.after_C])
  ∧ (d ← old_changes Scenario.after_C; Ok (d !! "id")) = Ok None
  ∧ (d ← previous_changes Scenario.after_C; Ok (d !! "id")) = Ok None
  ∧ (d ← changes Scenario.after_C; Ok (d !! "name")) = Ok None.
Proof. repeat split; vm_compute; reflexivity. Qed.

End DiffQueries.

Section Delete.

Implicit Types (self : InstanceChanges) (sent : list post_change_call).
Implicit Types (previous current : gmap string value).

Lemma clear_pk_on_delete_DELETE self :
  clear_pk_on_delete DELETE self =
    {| instance := set_pk (instance self) VNone; _states := _states self |}.
Proof. reflexivity. Qed.

Lemma push_onto_last (older : list (gmap string value)) previous current :
  length older ≤ 1 →
  push (older ++ [previous]) current = [previous; current].
Proof. destruct older as [|a [|b older]]; simpl; [done|done|lia]. Qed.

(** C2 (amended). Take a tracker whose last saved state holds a primary
    key [v] other than [None], over a class whose primary key is a local
    field that no relation is named after.  A capture with the event
    [DELETE] sets the primary key of the instance to [None] before it
    reads the state [current].  Afterwards [current_state()] and
    [previous_state()] are both that state, whose primary key is [None];
    [old_state()] is the state saved before, with the key [v];
    [old_changes()] and [previous_changes()] map the primary key to
    [(v, None)], and [changes()] is empty. *)
Theorem delete_capture self sent older previous current v :
  _states self = older ++ [previous] →
  length older ≤ 1 →
  pk (_meta (instance self)) ∈ local_fields (_meta (instance self)) →
  (∀ f, f ∈ local_fields (_meta (instance self)) →
        rel f = true → name f ≠ pk_attname (instance self)) →
  previous !! pk_attname (instance self) = Some v →
  py_ne v VNone = true →
  current_state (clear_pk_on_delete DELETE self) = Ok current →
  dom previous ⊆ dom current →
  ∃ self' sent',
    _save_state false DELETE self sent = Ok (self', sent')
    ∧ get_pk (instance self') = Ok VNone
    ∧ current_state self' = Ok current
    ∧ current !! pk_attname (instance self) = Some VNone
    ∧ previous_state self' = Ok current
    ∧ old_state self' = Ok previous
    ∧ (∃ d, old_changes self' = Ok d
            ∧ d !! pk_attname (instance self) = Some (v, VNone))
    ∧ (∃ d, previous_changes self' = Ok d
            ∧ d !! pk_attname (instance self) = Some (v, VNone))
    ∧ changes self' = Ok ∅.
Proof.
  intros Hstates Holder Hpk Hnames Hprev Hv Hcur Hdom.
  rewrite (_save_state_Ok _ _ _ _ _ Hcur).
  rewrite Hstates, push_onto_last by done.
  rewrite clear_pk_on_delete_DELETE in *. simpl in *.
  assert (Hnone : current !! pk_attname (instance self) = Some VNone).
  { unfold current_state in Hcur. simpl in Hcur.
    rewrite (read_fields_lookup_attname _ _ _ _ _ Hcur) by done.
    rewrite decide_True by (by apply (list_elem_of_fmap_2 attname)).
    unfold set_pk. simpl. apply lookup_insert_eq. }
  destruct (_changes_total previous current Hdom) as [d Hd].
  assert (Hdpk : d !! pk_attname (instance self) = Some (v, VNone))
    by (by apply (_changes_lookup _ _ _ _ _ _ Hd)).
  eexists _, _. split; [done|]. simpl.
  split; [|split; [|split; [|split; [|split; [|split; [|split]]]]]].
  - unfold get_pk, getattr, set_pk, pk_attname. simpl.
    by rewrite lookup_insert_eq.
  - done.
  - done.
  - done.
  - done.
  - exists d. split; [|done]. unfold old_changes, old_state, current_state.
    simpl. unfold current_state in Hcur. simpl in Hcur. by rewrite Hcur.
  - exists d. split; [|done]. by unfold previous_changes.
  - unfold changes, previous_state, current_state. simpl.
    unfold current_state in Hcur. simpl in Hcur. rewrite Hcur. simpl.
    apply _changes_same.
Qed.

Lemma delete_capture_witness :
  ∃ self' sent',
    _save_state false DELETE Scenario.before_delete [] = Ok (self', sent')
    ∧ get_pk (instance self') = Ok VNone
    ∧ current_state self' = Ok (Scenario.user_state VNone "x")
    ∧ Scenario.user_state VNone "x"
        !! pk_attname (instance Scenario.before_delete) = Some VNone
    ∧ previous_state self' = Ok (Scenario.user_state VNone "x")
    ∧ old_state self' = Ok (Scenario.user_state (VInt 5) "x")
    ∧ (∃ d, old_changes self' = Ok d
            ∧ d !! pk_attname (instance Scenario.before_delete) =
                Some (VInt 5, VNone))
    ∧ (∃ d, previous_changes self' = Ok d
            ∧ d !! pk_attname (instance Scenario.before_delete) =
                Some (VInt 5, VNone))
    ∧ changes self' = Ok ∅.
Proof.
  apply (delete_capture Scenario.before_delete [] []
           (Scenario.user_state (VInt 5) "x")
           (Scenario.user_state VNone "x") (VInt 5)).
  - reflexivity.
  - simpl. lia.
  - simpl. apply elem_of_cons. by left.
  - intros f Hf Hrel. simpl in Hf.
    apply elem_of_cons in Hf as [->|Hf]; [discriminate|].
    apply elem_of_cons in Hf as [->|Hf]; [discriminate|].
    by apply elem_of_nil in Hf.
  - reflexivity.
  - reflexivity.
  - vm_compute. reflexivity.
  - refine (bool_decide_unpack _ _). vm_compute. exact I.
Defined.

(** C2, as stated, fails: after the delete capture [previous_state()] is
    the state just saved, whose primary key is [None], not 5, and
    [changes()] has no entry for the primary key. *)
Lemma delete_previous_state_has_no_pk :
  _save_state false DELETE Scenario.before_delete [] =
    Ok (Scenario.after_delete, [Scenario.user_call Scenario.after_delete])
  ∧ (previous ← previous_state Scenario.after_delete;
     Ok (previous !! "id")) = Ok (Some VNone)
  ∧ (d ← changes Scenario.after_delete; Ok (d !! "id")) = Ok None.
Proof. repeat split; vm_compute; reflexivity. Qed.

(** The receiver of [post_delete] never reaches the tracker: for an
    instance that carries one it raises [AttributeError], while the
    receiver of [post_save] makes the capture. *)
Lemma _post_delete_raises c sent :
  _post_delete (with_changes c) sent = Raise AttributeError
  ∧ _post_save (with_changes c) sent =
      (r ← _save_state false SAVE c sent; Ok (with_changes r.1, r.2)).
Proof. done. Qed.

End Delete.

(** * Instances rebuilt from a state *)

Lemma NoDup_fmap_eq {A B} (h : A → B) (l : list A) x y :
  NoDup (h <$> l) → x ∈ l → y ∈ l → h x = h y → x = y.
Proof.
  induction l as [|a l IH]; intros Hnodup Hx Hy Heq.
  - by apply elem_of_nil in Hx.
  - rewrite fmap_cons in Hnodup. apply NoDup_cons in Hnodup as [Hfresh Hnodup].
    apply elem_of_cons in Hx as [->|Hx]; apply elem_of_cons in Hy as [->|Hy].
    + done.
    + destruct Hfresh. rewrite Heq. by apply list_elem_of_fmap_2.
    + destruct Hfresh. rewrite <- Heq. by apply list_elem_of_fmap_2.
    + by apply IH.
Qed.

Lemma new_model_lookup cls a :
  (∀ f, f ∈ local_fields cls → attname f ≠ a) →
  __dict__ (new_model cls) !! a = None.
Proof.
  unfold new_model. simpl.
  assert (Hfold : ∀ fs (d : gmap string value),
            (∀ f, f ∈ fs → attname f ≠ a) →
            fold_left (λ d f, <[attname f := get_default f]> d) fs d !! a =
              d !! a).
  { induction fs as [|f fs IH]; intros d Hfs; [done|].
    simpl. rewrite IH by (intros; apply Hfs; apply elem_of_cons; auto).
    apply lookup_insert_ne. apply Hfs. apply elem_of_cons. by left. }
  intros Hfs. by rewrite Hfold.
Qed.

Section WellFormed.

Variable cls : Options.
Hypothesis Hwf : wf_options cls.

Implicit Types (f g : Field) (k : string).

Lemma elem_of_relations f :
  f ∈ relations cls ↔ f ∈ local_fields cls ∧ rel f = true.
Proof. unfold relations. rewrite list_elem_of_filter. tauto. Qed.

Lemma wf_attname_name f g :
  f ∈ local_fields cls → g ∈ local_fields cls → rel g = true →
  attname f ≠ name g.
Proof.
  intros Hf Hg Hrel Heq. apply NoDup_app in Hwf as (_ & Hdisj & _).
  apply (Hdisj (attname f)); [by apply list_elem_of_fmap_2|].
  apply elem_of_app. left. rewrite Heq.
  apply list_elem_of_fmap_2. by apply elem_of_relations.
Qed.

Lemma wf_attname_cache_name f g :
  f ∈ local_fields cls → g ∈ local_fields cls → rel g = true →
  attname f ≠ cache_name g.
Proof.
  intros Hf Hg Hrel Heq. apply NoDup_app in Hwf as (_ & Hdisj & _).
  apply (Hdisj (attname f)); [by apply list_elem_of_fmap_2|].
  apply elem_of_app. right. rewrite Heq.
  apply list_elem_of_fmap_2. by apply elem_of_relations.
Qed.

Lemma wf_name_cache_name f g :
  f ∈ local_fields cls → rel f = true →
  g ∈ local_fields cls → rel g = true →
  name f ≠ cache_name g.
Proof.
  intros Hf Hrelf Hg Hrelg Heq.
  apply NoDup_app in Hwf as (_ & _ & Hrest).
  apply NoDup_app in Hrest as (_ & Hdisj & _).
  apply (Hdisj (name f)).
  - apply list_elem_of_fmap_2. by apply elem_of_relations.
  - rewrite Heq. apply list_elem_of_fmap_2. by apply elem_of_relations.
Qed.

Lemma wf_name_inj f g :
  f ∈ local_fields cls → rel f = true →
  g ∈ local_fields cls → rel g = true →
  name f = name g → f = g.
Proof.
  intros Hf Hrelf Hg Hrelg.
  apply NoDup_app in Hwf as (_ & _ & Hrest).
  apply NoDup_app in Hrest as (Hnames & _ & _).
  apply (NoDup_fmap_eq name (relations cls)); [done|..];
    by apply elem_of_relations.
Qed.

Lemma wf_cache_name_inj f g :
  f ∈ local_fields cls → rel f = true →
  g ∈ local_fields cls → rel g = true →
  cache_name f = cache_name g → f = g.
Proof.
  intros Hf Hrelf Hg Hrelg.
  apply NoDup_app in Hwf as (_ & _ & Hrest).
  apply NoDup_app in Hrest as (_ & _ & Hcaches).
  apply (NoDup_fmap_eq cache_name (relations cls)); [done|..];
    by apply elem_of_relations.
Qed.

(** The descriptor found under a key is the relation of that name. *)
Lemma descriptor_Some k g :
  descriptor cls k = Some g →
  g ∈ local_fields cls ∧ rel g = true ∧ name g = k.
Proof.
  unfold descriptor. intros Hfind. apply find_some in Hfind as [Hin Htest].
  apply andb_true_iff in Htest as [Hrel Hname].
  apply bool_decide_eq_true in Hname.
  by rewrite list_elem_of_In.
Qed.

Lemma descriptor_None k f :
  descriptor cls k = None →
  f ∈ local_fields cls → rel f = true → name f ≠ k.
Proof.
  unfold descriptor. intros Hfind Hf Hrel Hname.
  apply list_elem_of_In in Hf. apply (find_none _ _ Hfind f) in Hf.
  rewrite Hrel in Hf. simpl in Hf.
  by apply bool_decide_eq_false in Hf.
Qed.

Lemma existsb_relation_named k :
  existsb (λ f, rel f && bool_decide (name f = k)) (local_fields cls) = true ↔
  ∃ f, f ∈ local_fields cls ∧ rel f = true ∧ name f = k.
Proof.
  rewrite existsb_exists. split.
  - intros (f & Hin & Htest). apply andb_true_iff in Htest as [Hrel Hname].
    apply bool_decide_eq_true in Hname. exists f.
    by rewrite list_elem_of_In.
  - intros (f & Hin & Hrel & Hname). exists f.
    rewrite <- list_elem_of_In. split; [done|].
    rewrite Hrel. simpl. by apply bool_decide_eq_true.
Qed.

(** What a state read from an instance of the class holds: the attribute
    of every field, the cache of a relation, and nothing else. *)
Lemma read_fields_attname m state f :
  read_fields m (local_fields cls) ∅ = Ok state →
  f ∈ local_fields cls →
  state !! attname f = __dict__ m !! attname f
  ∧ is_Some (state !! attname f).
Proof.
  intros Hread Hf.
  assert (Hlookup : state !! attname f = __dict__ m !! attname f).
  { rewrite (read_fields_lookup_attname _ _ _ _ _ Hread).
    - rewrite decide_True; [done|]. by apply list_elem_of_fmap_2.
    - intros g Hg Hrel Heq. by apply (wf_attname_name f g). }
  split; [done|]. rewrite Hlookup.
  apply read_fields_Ok_inv in Hread.
  by apply (proj1 (Forall_forall _ _) Hread).
Qed.

Lemma read_fields_name m state f :
  read_fields m (local_fields cls) ∅ = Ok state →
  f ∈ local_fields cls → rel f = true →
  state !! name f = __dict__ m !! cache_name f.
Proof.
  intros Hread Hf Hrel.
  rewrite (read_fields_lookup_name _ _ _ _ _ (cache_name f) Hread).
  - rewrite (proj2 (existsb_relation_named (name f))) by eauto.
    rewrite lookup_empty. by destruct (__dict__ m !! cache_name f).
  - intros g Hg Heq. by apply (wf_attname_name g f).
  - intros g Hg Hrelg Heq. f_equal. by apply wf_name_inj.
Qed.

Lemma read_fields_other m state k :
  read_fields m (local_fields cls) ∅ = Ok state →
  (∀ f, f ∈ local_fields cls → attname f ≠ k) →
  (∀ f, f ∈ local_fields cls → rel f = true → name f ≠ k) →
  state !! k = None.
Proof.
  intros Hread Hatt Hname.
  rewrite (read_fields_lookup_attname _ _ _ _ _ Hread) by done.
  rewrite lookup_empty. case_decide as Hin; [|done].
  apply list_elem_of_fmap in Hin as (f & -> & Hf). by destruct (Hatt f).
Qed.

End WellFormed.

Section Rebuild.

Variable cls : Options.
Variable state : gmap string value.
Hypothesis Hwf : wf_options cls.
Hypothesis Hcaptured : captured cls state.
Hypothesis Hcoherent : coherent cls state.

Implicit Types (f g : Field) (k : string) (m : Model).

Lemma captured_attname f :
  f ∈ local_fields cls → is_Some (state !! attname f).
Proof.
  destruct Hcaptured as (m0 & _ & Hread). intros Hf.
  by apply (read_fields_attname cls Hwf m0).
Qed.

Lemma captured_key k v :
  state !! k = Some v →
  (∃ f, f ∈ local_fields cls ∧ attname f = k)
  ∨ (∃ f, f ∈ local_fields cls ∧ rel f = true ∧ name f = k).
Proof.
  destruct Hcaptured as (m0 & _ & Hread). intros Hk.
  destruct (decide (k ∈ attname <$> local_fields cls)) as [Hatt|Hatt].
  { left. apply list_elem_of_fmap in Hatt as (f & -> & Hf). eauto. }
  destruct (existsb (λ f, rel f && bool_decide (name f = k))
              (local_fields cls)) eqn:Hrel.
  { right. by apply existsb_relation_named. }
  rewrite (read_fields_other cls m0 state k Hread) in Hk; [done|..].
  - intros f Hf <-. apply Hatt. by apply list_elem_of_fmap_2.
  - intros f Hf Hrelf Hname.
    assert (Hex : existsb (λ f, rel f && bool_decide (name f = k))
                    (local_fields cls) = true)
      by (apply existsb_relation_named; eauto).
    congruence.
Qed.

(** One assignment of [_instance_from_state]: it succeeds, and it leaves
    or makes every attribute of a field, and every cache, what the state
    asks for. *)
Lemma setattr_step m k v :
  _meta m = cls → state !! k = Some v →
  ∃ m1, setattr m k v = Ok m1 ∧ _meta m1 = cls
    ∧ (∀ f, f ∈ local_fields cls →
         __dict__ m !! attname f = state !! attname f ∨ attname f = k →
         __dict__ m1 !! attname f = state !! attname f)
    ∧ (∀ f, f ∈ local_fields cls → rel f = true →
         __dict__ m !! cache_name f = state !! name f ∨ name f = k →
         __dict__ m1 !! cache_name f = state !! name f)
    ∧ (∀ f, f ∈ local_fields cls → rel f = true → name f ≠ k →
         __dict__ m1 !! cache_name f = __dict__ m !! cache_name f).
Proof.
  intros Hmeta Hk. unfold setattr. rewrite Hmeta.
  destruct (descriptor cls k) as [g|] eqn:Hdesc.
  - apply descriptor_Some in Hdesc as (Hg & Hrelg & <-).
    assert (Hagree := Hcoherent g v Hg Hrelg Hk).
    assert (∃ w, state !! attname g = Some w
              ∧ related_set g m v =
                  Ok (set_attribute (set_attribute m (attname g) w)
                        (cache_name g) v)) as (w & Hw & ->).
    { destruct v as [| b | n | s | oid opk]; simpl in Hagree; try done.
      - destruct Hagree as [Hnull Hw]. exists VNone.
        split; [done|]. simpl. by rewrite Hnull.
      - by exists (pk_value opk). }
    eexists. split; [done|]. simpl. split; [done|].
    assert (Hcache : ∀ f, f ∈ local_fields cls →
                          cache_name g ≠ attname f).
    { intros f Hf Heq. by apply (wf_attname_cache_name cls Hwf f g). }
    split; [|split].
    + intros f Hf Hor. rewrite lookup_insert_ne by auto.
      destruct (decide (attname g = attname f)) as [Heq|Hne].
      * rewrite Heq, lookup_insert_eq. by rewrite <- Heq.
      * rewrite lookup_insert_ne by done.
        destruct Hor as [Hold|Heq]; [done|].
        by destruct (wf_attname_name cls Hwf f g).
    + intros f Hf Hrelf Hor.
      destruct (decide (cache_name g = cache_name f)) as [Heq|Hne].
      * assert (g = f) as -> by (by apply (wf_cache_name_inj cls Hwf)).
        by rewrite lookup_insert_eq.
      * rewrite lookup_insert_ne by done.
        rewrite lookup_insert_ne
          by (by apply (wf_attname_cache_name cls Hwf)).
        destruct Hor as [Hold|Heq]; [done|].
        destruct Hne. f_equal. by apply (wf_name_inj cls Hwf).
    + intros f Hf Hrelf Hname.
      rewrite lookup_insert_ne.
      * rewrite lookup_insert_ne
          by (by apply (wf_attname_cache_name cls Hwf)).
        done.
      * intros Heq. apply Hname. f_equal.
        by apply (wf_cache_name_inj cls Hwf).
  - assert (Hplain : ∃ g, g ∈ local_fields cls ∧ attname g = k).
    { destruct (captured_key k v Hk) as [Hatt|(g & Hg & Hrelg & Hname)];
        [done|].
      by destruct (descriptor_None cls k g Hdesc). }
    destruct Hplain as (g & Hg & <-).
    eexists. split; [done|]. simpl. split; [done|]. split; [|split].
    + intros f Hf Hor.
      destruct (decide (attname g = attname f)) as [Heq|Hne].
      * rewrite Heq, lookup_insert_eq. by rewrite <- Heq.
      * rewrite lookup_insert_ne by done.
        destruct Hor as [Hold|Heq]; [done|]. by destruct Hne.
    + intros f Hf Hrelf Hor.
      rewrite lookup_insert_ne
        by (by apply (wf_attname_cache_name cls Hwf)).
      destruct Hor as [Hold|Heq]; [done|].
      by destruct (wf_attname_name cls Hwf g f).
    + intros f Hf Hrelf Hname.
      rewrite lookup_insert_ne
        by (by apply (wf_attname_cache_name cls Hwf)).
      done.
Qed.

(** The loop of [_instance_from_state], over the items of the state in
    any order. *)
Lemma assign_items_spec items : ∀ m,
  _meta m = cls →
  (∀ k v, (k, v) ∈ items → state !! k = Some v) →
  ∃ m', assign_items m items = Ok m' ∧ _meta m' = cls
    ∧ (∀ f, f ∈ local_fields cls →
         __dict__ m !! attname f = state !! attname f
         ∨ attname f ∈ items.*1 →
         __dict__ m' !! attname f = state !! attname f)
    ∧ (∀ f, f ∈ local_fields cls → rel f = true →
         __dict__ m !! cache_name f = state !! name f
         ∨ name f ∈ items.*1 →
         __dict__ m' !! cache_name f = state !! name f)
    ∧ (∀ f, f ∈ local_fields cls → rel f = true →
         name f ∉ items.*1 →
         __dict__ m' !! cache_name f = __dict__ m !! cache_name f).
Proof.
  induction items as [|[k v] items IH]; intros m Hmeta Hitems.
  - exists m. split; [done|]. split; [done|].
    split; [|split]; try done.
    + intros f Hf [Hold|Hin]; [done|]. by apply elem_of_nil in Hin.
    + intros f Hf Hrel [Hold|Hin]; [done|]. by apply elem_of_nil in Hin.
  - destruct (setattr_step m k v Hmeta) as (m1 & Hset & Hmeta1 & HA & HB & HC).
    { apply Hitems. apply elem_of_cons. by left. }
    destruct (IH m1 Hmeta1) as (m' & Hassign & Hmeta' & HA' & HB' & HC').
    { intros k' v' Hin. apply Hitems. apply elem_of_cons. by right. }
    exists m'. split; [by simpl; rewrite Hset|]. split; [done|].
    rewrite fmap_cons. simpl. split; [|split].
    + intros f Hf Hor. apply HA'; [done|].
      destruct Hor as [Hold|[Heq|Hin]%elem_of_cons]; [| |by right];
        left; apply HA; auto.
    + intros f Hf Hrel Hor. apply HB'; [done|done|].
      destruct Hor as [Hold|[Heq|Hin]%elem_of_cons]; [| |by right];
        left; apply HB; auto.
    + intros f Hf Hrel Hnotin. apply not_elem_of_cons in Hnotin as [Hne Hnotin].
      rewrite HC' by done. by apply HC.
Qed.

(** The instance rebuilt from the items of the state, in any order, reads
    back as the state. *)
Lemma assign_items_round_trip items :
  (∀ k v, (k, v) ∈ items ↔ state !! k = Some v) →
  ∃ m', assign_items (new_model cls) items = Ok m' ∧ _meta m' = cls
    ∧ read_fields m' (local_fields cls) ∅ = Ok state.
Proof.
  intros Hitems.
  destruct (assign_items_spec items (new_model cls) eq_refl)
    as (m' & Hassign & Hmeta & HA & HB & HC).
  { intros k v Hin. by apply Hitems. }
  exists m'. split; [done|]. split; [done|].
  assert (Hkey : ∀ k, k ∈ items.*1 ↔ is_Some (state !! k)).
  { intros k. rewrite list_elem_of_fmap. split.
    - intros ([k' v] & -> & Hin). exists v. by apply Hitems.
    - intros [v Hv]. exists (k, v). split; [done|]. by apply Hitems. }
  assert (Hattr : ∀ f, f ∈ local_fields cls →
                       __dict__ m' !! attname f = state !! attname f).
  { intros f Hf. apply HA; [done|]. right.
    apply Hkey. by apply captured_attname. }
  assert (Hcache : ∀ f, f ∈ local_fields cls → rel f = true →
                        __dict__ m' !! cache_name f = state !! name f).
  { intros f Hf Hrel. destruct (state !! name f) as [v|] eqn:Hv.
    - rewrite <- Hv. apply HB; [done|done|]. right.
      apply Hkey. by rewrite Hv.
    - rewrite HC; [|done|done|].
      + apply new_model_lookup. intros g Hg.
        by apply (wf_attname_cache_name cls Hwf).
      + rewrite Hkey, Hv. by intros [? ?]. }
  destruct (read_fields_Ok m' (local_fields cls) ∅) as [read Hread].
  { apply Forall_forall. intros f Hf. rewrite Hattr by done.
    by apply captured_attname. }
  rewrite Hread. f_equal. apply map_eq. intros k.
  destruct (decide (k ∈ attname <$> local_fields cls)) as [Hatt|Hatt].
  { apply list_elem_of_fmap in Hatt as (f & -> & Hf).
    rewrite (proj1 (read_fields_attname cls Hwf m' read f Hread Hf)).
    by apply Hattr. }
  destruct (existsb (λ f, rel f && bool_decide (name f = k))
              (local_fields cls)) eqn:Hrel.
  { apply existsb_relation_named in Hrel as (f & Hf & Hrel & <-).
    rewrite (read_fields_name cls Hwf m' read f Hread Hf Hrel).
    by apply Hcache. }
  assert (Hnoatt : ∀ f, f ∈ local_fields cls → attname f ≠ k).
  { intros f Hf <-. apply Hatt. by apply list_elem_of_fmap_2. }
  assert (Hnoname : ∀ f, f ∈ local_fields cls → rel f = true → name f ≠ k).
  { intros f Hf Hrelf Hname.
    assert (Hex : existsb (λ f, rel f && bool_decide (name f = k))
                    (local_fields cls) = true)
      by (apply existsb_relation_named; eauto).
    congruence. }
  rewrite (read_fields_other cls m' read k Hread Hnoatt Hnoname).
  destruct (state !! k) as [v|] eqn:Hv; [|done].
  destruct (captured_key k v Hv) as [(f & Hf & Heq)|(f & Hf & Hrelf & Heq)].
  - by destruct (Hnoatt f).
  - by destruct (Hnoname f).
Qed.

End Rebuild.

(** [_instance_from_state] on a coherent state read from an instance of
    the class of the tracker. *)
Lemma _instance_from_state_round_trip self state :
  wf_options (_meta (instance self)) →
  captured (_meta (instance self)) state →
  coherent (_meta (instance self)) state →
  ∃ m', _instance_from_state self state = Ok m'
    ∧ ∀ states,
        current_state {| instance := m'; _states := states |} = Ok state.
Proof.
  intros Hwf Hcaptured Hcoherent.
  destruct (assign_items_round_trip (_meta (instance self)) state
              Hwf Hcaptured Hcoherent (map_to_list state))
    as (m' & Hassign & Hmeta & Hread).
  { intros k v. apply elem_of_map_to_list. }
  exists m'. split; [done|]. intros states.
  unfold current_state. simpl. by rewrite Hmeta.
Qed.

(** Every state of a tracker was read from an instance of the class. *)
Lemma _save_state_captured new_instance event_type self sent self' sent' :
  _save_state new_instance event_type self sent = Ok (self', sent') →
  Forall (captured (_meta (instance self))) (_states self) →
  _meta (instance self') = _meta (instance self)
  ∧ Forall (captured (_meta (instance self))) (_states self').
Proof.
  intros Hsave Hall.
  apply _save_state_inv in Hsave as (state & Hcur & Hinst & Hstates & _).
  assert (Hmeta : _meta (instance (clear_pk_on_delete event_type self)) =
                  _meta (instance self))
    by (unfold clear_pk_on_delete; by destruct (py_eq _ _)).
  split; [by rewrite Hinst|].
  rewrite Hstates. unfold push.
  assert (Hnew : Forall (captured (_meta (instance self)))
                   (_states self ++ [state])).
  { apply Forall_app. split; [done|]. apply Forall_singleton.
    exists (instance (clear_pk_on_delete event_type self)).
    split; [done|]. unfold current_state in Hcur. by rewrite Hmeta in Hcur. }
  case_bool_decide; [|done].
  destruct (_states self ++ [state]) as [|a states]; [done|].
  by apply Forall_cons in Hnew as [_ Hnew].
Qed.

Lemma run_captured actions : ∀ self sent self' sent',
  run actions self sent = Ok (self', sent') →
  Forall (captured (_meta (instance self))) (_states self) →
  _meta (instance self') = _meta (instance self)
  ∧ Forall (captured (_meta (instance self))) (_states self').
Proof.
  induction actions as [|[a v|a|event_type] actions IH];
    intros self sent self' sent' Hrun Hall; simpl in Hrun.
  - by injection Hrun as <- <-.
  - by apply (IH _ _ _ _ Hrun).
  - by apply (IH _ _ _ _ Hrun).
  - destruct (_save_state false event_type self sent) as [[self1 sent1]|e] eqn:Hsave;
      [|done].
    simpl in Hrun.
    apply _save_state_captured in Hsave as [Hmeta Hall1]; [|done].
    rewrite <- Hmeta in *. by apply (IH _ _ _ _ Hrun).
Qed.

Lemma lifecycle_captured m actions self sent :
  lifecycle m actions = Ok (self, sent) →
  _meta (instance self) = _meta m
  ∧ Forall (captured (_meta m)) (_states self).
Proof.
  unfold lifecycle, __init__. intros Hlife.
  destruct (_save_state true _ _ _) as [[self0 sent0]|e] eqn:Hinit; [|done].
  simpl in Hlife.
  apply _save_state_captured in Hinit as [Hmeta Hall]; [|by constructor].
  simpl in *. rewrite <- Hmeta in *. by apply (run_captured _ _ _ _ _ Hlife).
Qed.


Lemma old_state_elem_of self state :
  old_state self = Ok state → state ∈ _states self.
Proof.
  unfold old_state, index. intros Hold.
  destruct (_states self !! 0) as [s|] eqn:Hs; [|done].
  injection Hold as ->. by eapply list_elem_of_lookup_2.
Qed.

Lemma previous_state_elem_of self state :
  previous_state self = Ok state → state ∈ _states self.
Proof.
  unfold previous_state, index. intros Hprev.
  case_bool_decide.
  - destruct (_states self !! 1) as [s|] eqn:Hs; [|done].
    injection Hprev as ->. by eapply list_elem_of_lookup_2.
  - destruct (_states self !! 0) as [s|] eqn:Hs; [|done].
    injection Hprev as ->. by eapply list_elem_of_lookup_2.
Qed.

(** Where the instances are rebuilt faithfully.  Take a tracker in the
    life of an instance of a well-formed class.  If [old_state()] is
    coherent (whenever it holds a cached object for a relation, that
    object is [None] on a nullable relation whose [attname] is [None], or
    an instance whose primary key is the value under the relation's
    [attname]), then [old_instance()] returns an instance whose fields read
    back as exactly [old_state()]; and likewise, on its own, for
    [previous_state()] and [previous_instance()]. *)
Theorem rebuilt_instances_read_back m actions self sent :
  wf_options (_meta m) →
  lifecycle m actions = Ok (self, sent) →
  (∀ old,
      old_state self = Ok old → coherent (_meta m) old →
      ∃ m', old_instance self = Ok m'
        ∧ ∀ states,
            current_state {| instance := m'; _states := states |} = Ok old)
  ∧ (∀ previous,
      previous_state self = Ok previous → coherent (_meta m) previous →
      ∃ m', previous_instance self = Ok m'
        ∧ ∀ states,
            current_state {| instance := m'; _states := states |} =
              Ok previous).
Proof.
  intros Hwf Hlife.
  apply lifecycle_captured in Hlife as [Hmeta Hall].
  rewrite <- Hmeta in *.
  assert (Hcaptured := proj1 (Forall_forall _ _) Hall).
  split.
  - intros old Hold Hcoherent. unfold old_instance. rewrite Hold. simpl.
    apply _instance_from_state_round_trip; try done.
    apply Hcaptured. by apply old_state_elem_of.
  - intros previous Hprev Hcoherent. unfold previous_instance.
    rewrite Hprev. simpl.
    apply _instance_from_state_round_trip; try done.
    apply Hcaptured. by apply previous_state_elem_of.
Qed.

Lemma book_state_coherent :
  coherent Scenario.Book
    (Scenario.book_state_cached (VInt 1) (VInt 3) Scenario.author).
Proof.
  intros field v Hin Hrel Hv. simpl in Hin.
  apply elem_of_cons in Hin as [->|Hin]; [discriminate|].
  apply elem_of_cons in Hin as [->|Hin]; [|by apply elem_of_nil in Hin].
  vm_compute in Hv. injection Hv as <-. vm_compute. reflexivity.
Defined.

Lemma rebuilt_instances_read_back_witness :
  ∃ m', old_instance Scenario.cached_book = Ok m'
    ∧ ∀ states,
        current_state {| instance := m'; _states := states |} =
          Ok (Scenario.book_state_cached (VInt 1) (VInt 3) Scenario.author).
Proof.
  apply (proj1 (rebuilt_instances_read_back
                  (Scenario.book_cached (VInt 1) (VInt 3) Scenario.author) []
                  Scenario.cached_book []
                  ltac:(refine (bool_decide_unpack _ _); vm_compute; exact I)
                  ltac:(vm_compute; reflexivity))).
  - reflexivity.
  - exact book_state_coherent.
Defined.

(** C9. The round trip of C9, which the docstring of [old_instance]
    promises too (an instance of this model in its old state), is broken
    by the code on a state that ordinary writes reach.  A [Book] whose
    author was read (and so cached) and whose [author_id] was then set
    to 4 has, after two saves, the state with [author_id] 4 and the cached
    author 3 as [old_state()] and [previous_state()].
    [_instance_from_state] assigns the keys of the state one by one, the
    author after [author_id]; assigning the author sets [author_id] to 3.
    So [old_instance()] and [previous_instance()] return an instance whose
    fields read back with [author_id] 3, not as the state they were built
    from. *)
Lemma stale_cache_is_not_rebuilt :
  lifecycle (Scenario.book (VInt 1) (VInt 3))
    [write "_author_cache" Scenario.author; write "author_id" (VInt 4);
     capture SAVE; capture SAVE] =
    Ok (Scenario.stale_book,
        [ {| sender := Scenario.Book;
             sent_instance := instance Scenario.stale_book;
             sent_changes :=
               {| instance := instance Scenario.stale_book;
                  _states := [Scenario.book_state (VInt 1) (VInt 3);
                              Scenario.stale_book_state] |} |};
          {| sender := Scenario.Book;
             sent_instance := instance Scenario.stale_book;
             sent_changes := Scenario.stale_book |} ])
  ∧ old_state Scenario.stale_book = Ok Scenario.stale_book_state
  ∧ previous_state Scenario.stale_book = Ok Scenario.stale_book_state
  ∧ old_instance Scenario.stale_book = Ok Scenario.rebuilt_book
  ∧ previous_instance Scenario.stale_book = Ok Scenario.rebuilt_book
  ∧ current_state {| instance := Scenario.rebuilt_book; _states := [] |} =
      Ok (Scenario.book_state_cached (VInt 1) (VInt 3) Scenario.author)
  ∧ Scenario.stale_book_state !! "author_id" = Some (VInt 4)
  ∧ Scenario.book_state_cached (VInt 1) (VInt 3) Scenario.author
      !! "author_id" = Some (VInt 3)
  ∧ Scenario.book_state_cached (VInt 1) (VInt 3) Scenario.author ≠
      Scenario.stale_book_state.
Proof.
  repeat split; try (vm_compute; reflexivity).
  intros Heq. apply (f_equal (λ d, d !! "author_id")) in Heq.
  vm_compute in Heq. discriminate.
Qed.

(** Nor is a state rebuilt that holds [None] as the cached object of a
    relation that is not nullable: the assignment is refused, and
    [old_instance()] raises. *)
Lemma unset_relation_is_refused :
  __init__ (Scenario.book_cached VNone VNone VNone) [] =
    Ok (Scenario.unset_book, [])
  ∧ old_instance Scenario.unset_book = Raise ValueError.
Proof. split; vm_compute; reflexivity. Qed.

(** * Further properties of the tracker *)

Section Tracker.

Implicit Types (self : InstanceChanges) (sent : list post_change_call).
Implicit Types (state : gmap string value) (m : Model).

Lemma clear_pk_on_delete_states event_type self :
  _states (clear_pk_on_delete event_type self) = _states self.
Proof. unfold clear_pk_on_delete. by destruct (py_eq _ _). Qed.

Lemma clear_pk_on_delete_meta event_type self :
  _meta (instance (clear_pk_on_delete event_type self)) =
    _meta (instance self).
Proof. unfold clear_pk_on_delete. by destruct (py_eq _ _). Qed.

Lemma current_state_instance self self' :
  instance self' = instance self → current_state self' = current_state self.
Proof. unfold current_state. by intros ->. Qed.

(** X1. Right after its construction a tracker holds one state, read from
    the instance as it was given: the old, the previous and the current
    state are that state, the three diffs are empty, and nothing was
    sent. *)
Theorem after_construction m sent self sent' :
  __init__ m sent = Ok (self, sent') →
  ∃ state,
    instance self = m
    ∧ _states self = [state]
    ∧ old_state self = Ok state
    ∧ previous_state self = Ok state
    ∧ current_state self = Ok state
    ∧ changes self = Ok ∅
    ∧ old_changes self = Ok ∅
    ∧ previous_changes self = Ok ∅
    ∧ sent' = sent.
Proof.
  intros Hinit. unfold __init__ in Hinit.
  apply _save_state_inv in Hinit as (state & Hcur & Hinst & Hstates & ->).
  simpl in *. exists state.
  assert (Hcur' : current_state self = Ok state).
  { unfold current_state in *. by rewrite Hinst. }
  unfold changes, old_changes, previous_changes, old_state, previous_state.
  rewrite Hcur', Hstates. simpl.
  by rewrite _changes_same.
Qed.

Lemma after_construction_witness :
  ∃ state,
    instance Scenario.after_A = Scenario.user VNone "x"
    ∧ _states Scenario.after_A = [state]
    ∧ old_state Scenario.after_A = Ok state
    ∧ previous_state Scenario.after_A = Ok state
    ∧ current_state Scenario.after_A = Ok state
    ∧ changes Scenario.after_A = Ok ∅
    ∧ old_changes Scenario.after_A = Ok ∅
    ∧ previous_changes Scenario.after_A = Ok ∅
    ∧ ([] : list post_change_call) = [].
Proof.
  apply (after_construction (Scenario.user VNone "x") [] Scenario.after_A []).
  vm_compute. reflexivity.
Defined.

(** X2. Two captures in a row, whatever is written to the instance in
    between and whatever the history held before, leave exactly the two
    states they read: the first as the old state and the second as the
    previous state. *)
Theorem two_captures_fill_the_history
    new1 event1 new2 event2 self sent self1 sent1 written sent1' self2 sent2 :
  length (_states self) ≤ 2 →
  _save_state new1 event1 self sent = Ok (self1, sent1) →
  _states written = _states self1 →
  _save_state new2 event2 written sent1' = Ok (self2, sent2) →
  ∃ state1 state2,
    current_state (clear_pk_on_delete event1 self) = Ok state1
    ∧ current_state (clear_pk_on_delete event2 written) = Ok state2
    ∧ _states self2 = [state1; state2]
    ∧ old_state self2 = Ok state1
    ∧ previous_state self2 = Ok state2.
Proof.
  intros Hlen Hsave1 Hwritten Hsave2.
  apply _save_state_inv in Hsave1 as (state1 & Hcur1 & _ & Hstates1 & _).
  apply _save_state_inv in Hsave2 as (state2 & Hcur2 & _ & Hstates2 & _).
  exists state1, state2. split; [done|]. split; [done|].
  assert (Hstates : _states self2 = [state1; state2]).
  { rewrite Hstates2, Hwritten, Hstates1.
    destruct (_states self) as [|a [|b [|c states]]]; simpl in *;
      try done; lia. }
  unfold old_state, previous_state. by rewrite Hstates.
Qed.

Lemma two_captures_fill_the_history_witness :
  ∃ state1 state2,
    current_state
      (clear_pk_on_delete SAVE (assign Scenario.after_A "id" (VInt 1))) =
      Ok state1
    ∧ current_state (clear_pk_on_delete SAVE Scenario.before_C) = Ok state2
    ∧ _states Scenario.after_C = [state1; state2]
    ∧ old_state Scenario.after_C = Ok state1
    ∧ previous_state Scenario.after_C = Ok state2.
Proof.
  apply (two_captures_fill_the_history false SAVE false SAVE
           (assign Scenario.after_A "id" (VInt 1)) []
           Scenario.after_B [Scenario.user_call Scenario.after_B]
           Scenario.before_C [Scenario.user_call Scenario.after_B]
           Scenario.after_C
           [Scenario.user_call Scenario.after_B;
            Scenario.user_call Scenario.after_C]).
  - simpl. lia.
  - vm_compute. reflexivity.
  - reflexivity.
  - vm_compute. reflexivity.
Defined.

Lemma previous_state_snoc (older : list (gmap string value)) previous m :
  length older ≤ 1 →
  previous_state {| instance := m; _states := older ++ [previous] |} =
    Ok previous.
Proof. destruct older as [|a [|b older]]; simpl; [done|done|lia]. Qed.

Lemma states_snoc self :
  1 ≤ length (_states self) ≤ 2 →
  ∃ older previous,
    _states self = older ++ [previous] ∧ length older ≤ 1.
Proof.
  intros Hlen. destruct (_states self) as [|a [|b [|c states]]];
    simpl in Hlen; try lia.
  - exists [], a. split; [done|]. simpl. lia.
  - exists [a], b. split; [done|]. simpl. lia.
Qed.

Lemma capture_shifts_the_diffs_aux
    new_instance event_type self sent self' sent' :
  1 ≤ length (_states self) ≤ 2 →
  _save_state new_instance event_type self sent = Ok (self', sent') →
  old_state self' = previous_state self
  ∧ previous_changes self' = changes (clear_pk_on_delete event_type self).
Proof.
  intros Hlen Hsave.
  apply _save_state_inv in Hsave as (state & Hcur & _ & Hstates & _).
  destruct (states_snoc self Hlen) as (older & previous & Hself & Holder).
  assert (Hprev : previous_state self = Ok previous).
  { destruct self as [m states]. simpl in Hself. subst states.
    by apply previous_state_snoc. }
  assert (Hpushed : _states self' = [previous; state]).
  { rewrite Hstates, Hself. by apply push_onto_last. }
  assert (Hshift : previous_changes self' =
                   changes (clear_pk_on_delete event_type self)).
  { unfold previous_changes, changes, old_state.
    rewrite Hcur.
    replace (previous_state (clear_pk_on_delete event_type self))
      with (previous_state self)
      by (unfold previous_state; by rewrite clear_pk_on_delete_states).
    rewrite Hprev. unfold previous_state. by rewrite Hpushed. }
  split; [|done].
  rewrite Hprev. unfold old_state. by rewrite Hpushed.
Qed.


(** X3. At a capture the previous state becomes the old state, and the
    diff that [changes()] gave just before the capture (for a delete:
    once the primary key is cleared) is the one [previous_changes()] gives
    after it. *)
Theorem capture_shifts_the_diffs
    new_instance event_type self sent self' sent' :
  1 ≤ length (_states self) ≤ 2 →
  _save_state new_instance event_type self sent = Ok (self', sent') →
  old_state self' = previous_state self
  ∧ previous_changes self' = changes (clear_pk_on_delete event_type self)
  ∧ (py_eq event_type DELETE = false →
     previous_changes self' = changes self).
Proof.
  intros Hlen Hsave.
  destruct (capture_shifts_the_diffs_aux _ _ _ _ _ _ Hlen Hsave)
    as [Hold Hshift].
  split; [done|]. split; [done|].
  intros Hevent. rewrite Hshift. unfold clear_pk_on_delete.
  by rewrite Hevent.
Qed.

Lemma capture_shifts_the_diffs_witness :
  old_state Scenario.after_C = previous_state Scenario.before_C
  ∧ previous_changes Scenario.after_C =
      changes (clear_pk_on_delete SAVE Scenario.before_C)
  ∧ (py_eq SAVE DELETE = false →
     previous_changes Scenario.after_C = changes Scenario.before_C).
Proof.
  apply (capture_shifts_the_diffs false SAVE Scenario.before_C
           [Scenario.user_call Scenario.after_B] Scenario.after_C
           [Scenario.user_call Scenario.after_B;
            Scenario.user_call Scenario.after_C]).
  - simpl. lia.
  - vm_compute. reflexivity.
Defined.

Lemma capture_saves_current new_instance event_type self sent self' sent' :
  length (_states self) ≤ 2 →
  _save_state new_instance event_type self sent = Ok (self', sent') →
  ∃ state, previous_state self' = Ok state ∧ current_state self' = Ok state.
Proof.
  intros Hlen Hsave.
  apply _save_state_inv in Hsave as (state & Hcur & Hinst & Hstates & _).
  exists state. split.
  - unfold previous_state. rewrite Hstates.
    destruct (_states self) as [|a [|b [|c states]]]; simpl in *;
      try done; lia.
  - unfold current_state in *. by rewrite Hinst.
Qed.

(** X4. The tracker that [post_change] is sent with has just saved the
    current state: its [changes()] is empty, and its [old_changes()] is
    its [previous_changes()]. *)
Theorem post_change_carries_no_changes event_type self sent self' sent' :
  length (_states self) ≤ 2 →
  _save_state false event_type self sent = Ok (self', sent') →
  ∃ call,
    sent' = sent ++ [call]
    ∧ sent_changes call = self'
    ∧ changes self' = Ok ∅
    ∧ old_changes self' = previous_changes self'.
Proof.
  intros Hlen Hsave.
  destruct (capture_saves_current _ _ _ _ _ _ Hlen Hsave)
    as (state & Hprev & Hcur).
  apply _save_state_inv in Hsave as (_ & _ & _ & _ & ->).
  eexists. split; [done|]. split; [done|].
  unfold changes, old_changes, previous_changes.
  rewrite Hprev, Hcur. simpl. split; [apply _changes_same | done].
Qed.

Lemma post_change_carries_no_changes_witness :
  ∃ call,
    [Scenario.user_call Scenario.after_B; Scenario.user_call Scenario.after_C] =
      [Scenario.user_call Scenario.after_B] ++ [call]
    ∧ sent_changes call = Scenario.after_C
    ∧ changes Scenario.after_C = Ok ∅
    ∧ old_changes Scenario.after_C = previous_changes Scenario.after_C.
Proof.
  apply (post_change_carries_no_changes SAVE Scenario.before_C).
  - simpl. lia.
  - vm_compute. reflexivity.
Defined.

Lemma changed_items_agree items (current current' : gmap string value) :
  (∀ k was, (k, was) ∈ items → current !! k = current' !! k) →
  changed_items items current = changed_items items current'.
Proof.
  induction items as [|[k was] items IH]; intros Hagree; [done|].
  simpl. unfold getitem.
  rewrite <- (Hagree k was) by (apply elem_of_cons; by left).
  rewrite IH; [done|].
  intros k' was' Hin. apply (Hagree k' was'). apply elem_of_cons. by right.
Qed.

(** X5. A diff looks at the later state only under the keys of the
    earlier one: two later states that agree on those keys give the same
    diff (or the same [KeyError]), so a key that only the later state
    holds is never reported. *)
Theorem _changes_reads_the_earlier_keys
    (other current current' : gmap string value) :
  (∀ k, k ∈ dom other → current !! k = current' !! k) →
  _changes other current = _changes other current'.
Proof.
  intros Hagree. unfold _changes.
  rewrite (changed_items_agree _ current current'); [done|].
  intros k was Hin%elem_of_map_to_list. apply Hagree.
  apply elem_of_dom. by rewrite Hin.
Qed.

Lemma _changes_reads_the_earlier_keys_witness :
  _changes (Scenario.book_state (VInt 1) (VInt 3))
    (Scenario.book_state (VInt 1) (VInt 4)) =
  _changes (Scenario.book_state (VInt 1) (VInt 3))
    (Scenario.book_state_cached (VInt 1) (VInt 4) Scenario.author).
Proof.
  apply _changes_reads_the_earlier_keys.
  intros k Hk. unfold Scenario.book_state_cached.
  destruct (decide ("author" = k)) as [<-|Hne].
  - assert (Hin := bool_decide_pack _ Hk). vm_compute in Hin. destruct Hin.
  - by rewrite lookup_insert_ne.
Defined.

Lemma read_fields_agree m m' fs : ∀ fields,
  (∀ f, f ∈ fs →
        __dict__ m !! attname f = __dict__ m' !! attname f
        ∧ (rel f = true →
           __dict__ m !! cache_name f = __dict__ m' !! cache_name f)) →
  read_fields m fs fields = read_fields m' fs fields.
Proof.
  induction fs as [|f fs IH]; intros fields Hagree; [done|].
  destruct (Hagree f) as [Hatt Hcache]; [apply elem_of_cons; by left|].
  simpl. unfold getattr, read_field. rewrite <- Hatt.
  destruct (__dict__ m !! attname f) as [v|]; [|done]. simpl.
  assert (Hrest : ∀ fields, read_fields m fs fields = read_fields m' fs fields).
  { intros fields'. apply IH. intros g Hg. apply Hagree.
    apply elem_of_cons. by right. }
  destruct (rel f); [|by apply Hrest].
  rewrite <- Hcache by done. by apply Hrest.
Qed.

(** X6. Take an attribute name under which the class has no descriptor:
    not [pk], not the name of a relation, and neither the [attname] of a
    local field nor the cache of a relation.  Assigning it is a plain
    write, and it is not tracked: writing or deleting it changes neither
    [current_state()] nor [changes()], [old_changes()] and
    [previous_changes()]. *)
Theorem other_attributes_are_not_tracked self a v :
  a ≠ "pk" →
  (∀ f, f ∈ local_fields (_meta (instance self)) →
        attname f ≠ a
        ∧ (rel f = true → name f ≠ a ∧ cache_name f ≠ a)) →
  setattr (instance self) a v = Ok (instance (assign self a v))
  ∧ current_state (assign self a v) = current_state self
  ∧ changes (assign self a v) = changes self
  ∧ old_changes (assign self a v) = old_changes self
  ∧ previous_changes (assign self a v) = previous_changes self
  ∧ current_state (unassign self a) = current_state self
  ∧ changes (unassign self a) = changes self
  ∧ old_changes (unassign self a) = old_changes self
  ∧ previous_changes (unassign self a) = previous_changes self.
Proof.
  intros _ Hother.
  assert (Hplain : setattr (instance self) a v =
                   Ok (instance (assign self a v))).
  { unfold setattr.
    destruct (descriptor (_meta (instance self)) a) as [g|] eqn:Hdesc;
      [|done].
    apply descriptor_Some in Hdesc as (Hg & Hrel & Hname).
    by destruct (proj1 (proj2 (Hother g Hg) Hrel)). }
  assert (Hassign : current_state (assign self a v) = current_state self).
  { unfold current_state. simpl. apply read_fields_agree. intros f Hf.
    destruct (Hother f Hf) as [Hatt Hcache]. simpl.
    split; [by rewrite lookup_insert_ne|].
    intros Hrel. rewrite lookup_insert_ne; [done|].
    intros ->. by apply (Hcache Hrel). }
  assert (Hunassign : current_state (unassign self a) = current_state self).
  { unfold current_state. simpl. apply read_fields_agree. intros f Hf.
    destruct (Hother f Hf) as [Hatt Hcache]. simpl.
    split; [by rewrite lookup_delete_ne|].
    intros Hrel. rewrite lookup_delete_ne; [done|].
    intros ->. by apply (Hcache Hrel). }
  unfold changes, old_changes. rewrite Hassign, Hunassign. done.
Qed.

Lemma other_attributes_are_not_tracked_witness :
  setattr (instance Scenario.cached_book) "nickname" VNone =
    Ok (instance (assign Scenario.cached_book "nickname" VNone))
  ∧ current_state (assign Scenario.cached_book "nickname" VNone) =
      current_state Scenario.cached_book
  ∧ changes (assign Scenario.cached_book "nickname" VNone) =
      changes Scenario.cached_book
  ∧ old_changes (assign Scenario.cached_book "nickname" VNone) =
      old_changes Scenario.cached_book
  ∧ previous_changes (assign Scenario.cached_book "nickname" VNone) =
      previous_changes Scenario.cached_book
  ∧ current_state (unassign Scenario.cached_book "nickname") =
      current_state Scenario.cached_book
  ∧ changes (unassign Scenario.cached_book "nickname") =
      changes Scenario.cached_book
  ∧ old_changes (unassign Scenario.cached_book "nickname") =
      old_changes Scenario.cached_book
  ∧ previous_changes (unassign Scenario.cached_book "nickname") =
      previous_changes Scenario.cached_book.
Proof.
  apply other_attributes_are_not_tracked; [discriminate|].
  intros f Hf. simpl in Hf.
  apply elem_of_cons in Hf as [->|Hf]; [split; [discriminate|discriminate]|].
  apply elem_of_cons in Hf as [->|Hf];
    [split; [discriminate|by intros _; split]|].
  by apply elem_of_nil in Hf.
Defined.

(** X7. A capture fails only with [AttributeError], and it succeeds
    exactly when the instance (with its primary key set, on a delete) has
    an attribute for the [attname] of every local field. *)
Theorem capture_needs_every_attname new_instance event_type self sent :
  ((∃ r, _save_state new_instance event_type self sent = Ok r) ↔
   Forall (λ f, is_Some (__dict__ (instance
                                     (clear_pk_on_delete event_type self))
                           !! attname f))
     (local_fields (_meta (instance self))))
  ∧ (∀ e, _save_state new_instance event_type self sent = Raise e →
          e = AttributeError).
Proof.
  assert (Hmeta := clear_pk_on_delete_meta event_type self).
  split; [split|].
  - intros [[self' sent'] Hsave].
    apply _save_state_inv in Hsave as (state & Hcur & _).
    unfold current_state in Hcur. rewrite Hmeta in Hcur.
    by eapply read_fields_Ok_inv.
  - intros Hall.
    destruct (read_fields_Ok (instance (clear_pk_on_delete event_type self))
                _ ∅ Hall) as [state Hread].
    eexists. apply _save_state_Ok. unfold current_state.
    rewrite Hmeta. exact Hread.
  - intros e Hraise.
    destruct (current_state (clear_pk_on_delete event_type self))
      as [state|e'] eqn:Hcur.
    + by rewrite (_save_state_Ok _ _ _ _ _ Hcur) in Hraise.
    + rewrite (_save_state_Raise _ _ _ _ _ Hcur) in Hraise.
      injection Hraise as <-. by eapply read_fields_Raise.
Qed.

(** X8. A capture for an event other than [DELETE] does not write to the
    instance; a capture for [DELETE] sets the primary key to [None] and
    writes nothing else, so that [is_persisted()] is false afterwards. *)
Theorem capture_writes_only_the_primary_key
    new_instance event_type self sent self' sent' :
  _save_state new_instance event_type self sent = Ok (self', sent') →
  (py_eq event_type DELETE = false → instance self' = instance self)
  ∧ (py_eq event_type DELETE = true →
     instance self' = set_pk (instance self) VNone
     ∧ is_persisted self' = Ok false
     ∧ ∀ a, a ≠ pk_attname (instance self) →
            __dict__ (instance self') !! a = __dict__ (instance self) !! a).
Proof.
  intros Hsave.
  apply _save_state_inv in Hsave as (state & _ & Hinst & _).
  unfold clear_pk_on_delete in Hinst.
  split; intros Hevent; rewrite Hevent in Hinst; [done|].
  simpl in Hinst. split; [done|]. split.
  - unfold is_persisted, get_pk, getattr. rewrite Hinst.
    unfold set_pk, pk_attname. simpl. by rewrite lookup_insert_eq.
  - intros a Ha. rewrite Hinst. unfold set_pk. simpl.
    by rewrite lookup_insert_ne.
Qed.

Lemma capture_writes_only_the_primary_key_witness :
  (py_eq DELETE DELETE = false →
   instance Scenario.after_delete = instance Scenario.before_delete)
  ∧ (py_eq DELETE DELETE = true →
     instance Scenario.after_delete =
       set_pk (instance Scenario.before_delete) VNone
     ∧ is_persisted Scenario.after_delete = Ok false
     ∧ ∀ a, a ≠ pk_attname (instance Scenario.before_delete) →
            __dict__ (instance Scenario.after_delete) !! a =
              __dict__ (instance Scenario.before_delete) !! a).
Proof.
  apply (capture_writes_only_the_primary_key false DELETE
           Scenario.before_delete []
           Scenario.after_delete [Scenario.user_call Scenario.after_delete]).
  vm_compute. reflexivity.
Defined.

(** X9. After a capture [was_persisted()] tells whether the state saved
    by the event before, which was the previous state, held a true
    primary key. *)
Theorem was_persisted_after_capture
    new_instance event_type self sent self' sent' previous v :
  1 ≤ length (_states self) ≤ 2 →
  _save_state new_instance event_type self sent = Ok (self', sent') →
  previous_state self = Ok previous →
  previous !! pk_attname (instance self) = Some v →
  was_persisted self' = Ok (py_bool v).
Proof.
  intros Hlen Hsave Hprev Hv.
  destruct (capture_shifts_the_diffs_aux _ _ _ _ _ _ Hlen Hsave) as [Hold _].
  apply _save_state_inv in Hsave as (state & _ & Hinst & _).
  unfold was_persisted, getitem. rewrite Hold, Hprev. simpl.
  replace (pk_attname (instance self')) with (pk_attname (instance self)).
  - by rewrite Hv.
  - unfold pk_attname. rewrite Hinst.
    by rewrite clear_pk_on_delete_meta.
Qed.

Lemma was_persisted_after_capture_witness :
  was_persisted Scenario.after_delete = Ok (py_bool (VInt 5)).
Proof.
  apply (was_persisted_after_capture false DELETE Scenario.before_delete []
           Scenario.after_delete [Scenario.user_call Scenario.after_delete]
           (Scenario.user_state (VInt 5) "x")).
  - simpl. lia.
  - vm_compute. reflexivity.
  - reflexivity.
  - reflexivity.
Defined.

End Tracker.

(** * The receivers *)

Section Receivers.

Implicit Types (i : signal_instance) (sent : list post_change_call).

Lemma deliver_with_changes signals : ∀ c sent i' sent',
  deliver signals (with_changes c) sent = Ok (i', sent') →
  (delete_signal ∉ signals)
  ∧ (∃ c', i' = with_changes c')
  ∧ length sent' =
      length sent + length (filter (λ s, s = save_signal) signals).
Proof.
  induction signals as [|s signals IH]; intros c sent i' sent' Hrun.
  - simpl in Hrun. injection Hrun as <- <-.
    split; [apply not_elem_of_nil|]. split; [by exists c|]. simpl. lia.
  - destruct s; simpl in Hrun.
    + unfold _post_init, __init__ in Hrun. simpl in Hrun.
      destruct (_save_state true _ _ sent) as [[c1 sent1]|e] eqn:Hinit;
        [|done].
      simpl in Hrun. apply IH in Hrun as (Hnot & Hc & Hlen).
      apply _save_state_inv in Hinit as (_ & _ & _ & _ & Hsent).
      simpl in Hsent. subst sent1.
      split; [by apply not_elem_of_cons|]. split; [done|].
      rewrite filter_cons_False by done. done.
    + destruct (_save_state false SAVE c sent) as [[c1 sent1]|e] eqn:Hsave;
        [|done].
      simpl in Hrun. apply IH in Hrun as (Hnot & Hc & Hlen).
      apply _save_state_inv in Hsave as (_ & _ & _ & _ & Hsent).
      simpl in Hsent. subst sent1.
      split; [by apply not_elem_of_cons|]. split; [done|].
      rewrite filter_cons_True by done. rewrite Hlen, length_app.
      simpl. lia.
    + done.
Qed.

(** X10. Once [post_init] was delivered to an instance, no [post_delete]
    is ever handled: a run of signals that completes holds none, it leaves
    the instance with a tracker, and it has sent [post_change] once for
    every [post_save]. *)
Theorem post_delete_is_never_handled signals i sent i' sent' :
  deliver (init_signal :: signals) i sent = Ok (i', sent') →
  (delete_signal ∉ signals)
  ∧ (∃ c', i' = with_changes c')
  ∧ length sent' =
      length sent + length (filter (λ s, s = save_signal) signals).
Proof.
  intros Hrun. simpl in Hrun.
  unfold _post_init, __init__ in Hrun.
  destruct (_save_state true _ _ sent) as [[c1 sent1]|e] eqn:Hinit; [|done].
  simpl in Hrun. apply deliver_with_changes in Hrun as (Hnot & Hc & Hlen).
  apply _save_state_inv in Hinit as (_ & _ & _ & _ & Hsent).
  simpl in Hsent. by subst sent1.
Qed.

Lemma post_delete_is_never_handled_witness :
  (delete_signal ∉ [save_signal])
  ∧ (∃ c',
      with_changes
        (Scenario.user_tracker (VInt 7) "x"
           [Scenario.user_state (VInt 7) "x";
            Scenario.user_state (VInt 7) "x"]) = with_changes c')
  ∧ length
      [Scenario.user_call
         (Scenario.user_tracker (VInt 7) "x"
            [Scenario.user_state (VInt 7) "x";
             Scenario.user_state (VInt 7) "x"])] =
      length ([] : list post_change_call)
      + length (filter (λ s, s = save_signal) [save_signal]).
Proof.
  apply (post_delete_is_never_handled [save_signal]
           (without_changes (Scenario.user (VInt 7) "x")) []).
  vm_compute. reflexivity.
Defined.

End Receivers.

(** * The registry *)

Section Registry.

Implicit Types (registry : gmap ModelBase ModelChanges).
Implicit Types (connected : list connection) (models : list ModelBase).

(** The connections that the construction of a [ModelChanges] makes. *)
Lemma ModelChanges__init__connected m connected :
  ModelChanges__init__ m connected =
    ({| model := m |}, connected ++ (ModelChanges__init__ m []).2).
Proof. reflexivity. Qed.

Lemma register_loop_app before after allow_existing : ∀ registry connected,
  register_loop (before ++ after) allow_existing registry connected =
    match register_loop before allow_existing registry connected with
    | (registry', connected', None) =>
        register_loop after allow_existing registry' connected'
    | stopped => stopped
    end.
Proof.
  induction before as [|m before IH]; intros registry connected; [done|].
  simpl. destruct (abstract m); [done|].
  destruct (bool_decide _ && negb allow_existing); [done|]. apply IH.
Qed.

(** The loop of [register] runs to its end when no model is abstract and,
    unless existing models are allowed, the models are distinct and not
    registered yet. *)
Lemma register_loop_None models allow_existing : ∀ registry connected,
  Forall (λ m, abstract m = false) models →
  allow_existing = true
  ∨ (NoDup models ∧ Forall (λ m, registry !! m = None) models) →
  ∃ registry',
    register_loop models allow_existing registry connected =
      (registry',
       connected ++ flat_map (λ m, (ModelChanges__init__ m []).2) models,
       None)
    ∧ ∀ m, registry' !! m =
             if decide (m ∈ models) then Some {| model := m |}
             else registry !! m.
Proof.
  induction models as [|m models IH]; intros registry connected Hconcrete Hnew.
  - exists registry. split; [simpl; by rewrite app_nil_r|].
    intros m. destruct (decide (m ∈ [])) as [Hin|_]; [|done].
    by apply elem_of_nil in Hin.
  - apply Forall_cons in Hconcrete as [Hm Hconcrete].
    cbn [register_loop]. rewrite Hm.
    assert (Hguard : bool_decide (is_Some (registry !! m))
                     && negb allow_existing = false).
    { destruct Hnew as [->|[_ Hfresh]]; [by rewrite andb_false_r|].
      apply Forall_cons in Hfresh as [Hfresh _].
      rewrite bool_decide_false; [done|]. rewrite Hfresh. by intros [? ?]. }
    rewrite Hguard. cbv zeta.
    rewrite ModelChanges__init__connected. cbn [fst snd].
    destruct (IH (<[m := {| model := m |}]> registry)
                (connected ++ (ModelChanges__init__ m []).2) Hconcrete)
      as (registry' & Hloop & Hlookup).
    { destruct Hnew as [->|[Hnodup Hfresh]]; [by left|]. right.
      apply NoDup_cons in Hnodup as [Hnotin Hnodup].
      apply Forall_cons in Hfresh as [_ Hfresh]. split; [done|].
      apply Forall_forall. intros m' Hin.
      rewrite lookup_insert_ne by (by intros ->).
      by apply (proj1 (Forall_forall _ _) Hfresh). }
    exists registry'. split.
    + rewrite Hloop. cbn [flat_map]. by rewrite <- app_assoc.
    + intros m'. rewrite Hlookup.
      destruct (decide (m' ∈ models)) as [Hin|Hnotin].
      * rewrite decide_True by (apply elem_of_cons; by right). done.
      * destruct (decide (m = m')) as [->|Hne].
        -- rewrite lookup_insert_eq.
           rewrite decide_True by (apply elem_of_cons; by left). done.
        -- rewrite lookup_insert_ne by done.
           rewrite decide_False; [done|].
           intros [?|?]%elem_of_cons; by subst.
Qed.



(** X12. Whatever [allow_existing] is, [register] on models among which
    [m] is abstract does what it does on the models before [m] alone and,
    when that runs to its end, raises [ImproperlyConfigured] for [m]: the
    models before [m] are registered and connected as if they had been
    given alone, and the models after it are not looked at.  (When the
    models before [m] already stop the loop, it stops there, with their
    exception.)  The models before [m] run to the end when none is
    abstract and, unless existing models are allowed, they are distinct
    and not registered yet. *)
Theorem register_stops_at_an_abstract_model
    before m after allow_existing registry connected :
  abstract m = true →
  register (some_models (before ++ m :: after)) allow_existing registry
    connected =
    match register (some_models before) allow_existing registry connected
    with
    | (registry', connected', None) =>
        (registry', connected',
         Some (ImproperlyConfigured
                 ("The model " +:+ __name__ m
                  +:+ " is abstract, so it cannot be registered with model changes.")))
    | stopped => stopped
    end
  ∧ (Forall (λ m, abstract m = false) before →
     allow_existing = true
     ∨ (NoDup before ∧ Forall (λ m, registry !! m = None) before) →
     ∃ registry' connected',
       register (some_models before) allow_existing registry connected =
         (registry', connected', None)
       ∧ register (some_models (before ++ m :: after)) allow_existing
           registry connected =
           (registry', connected',
            Some (ImproperlyConfigured
                    ("The model " +:+ __name__ m
                     +:+ " is abstract, so it cannot be registered with model changes.")))).
Proof.
  intros Hm.
  assert (Hstop :
    register (some_models (before ++ m :: after)) allow_existing registry
      connected =
      match register (some_models before) allow_existing registry connected
      with
      | (registry', connected', None) =>
          (registry', connected',
           Some (ImproperlyConfigured
                   ("The model " +:+ __name__ m
                    +:+ " is abstract, so it cannot be registered with model changes.")))
      | stopped => stopped
      end).
  { unfold register. cbn [as_iterable]. rewrite register_loop_app.
    destruct (register_loop before allow_existing registry connected)
      as [[registry' connected'] [e|]]; [done|].
    cbn [register_loop]. by rewrite Hm. }
  split; [exact Hstop|].
  intros Hconcrete Hnew.
  destruct (register_loop_None before allow_existing registry connected
              Hconcrete Hnew) as (registry' & Hloop & _).
  eexists _, _. split; [exact Hloop|].
  rewrite Hstop. unfold register. cbn [as_iterable]. by rewrite Hloop.
Qed.

Lemma register_stops_at_an_abstract_model_witness :
  ∃ registry' connected',
    register (some_models [Models.User]) false ∅ [] =
      (registry', connected', None)
    ∧ register (some_models ([Models.User] ++ Models.Base :: [Models.Book]))
        false ∅ [] =
        (registry', connected',
         Some (ImproperlyConfigured
                 ("The model " +:+ __name__ Models.Base
                  +:+ " is abstract, so it cannot be registered with model changes."))).
Proof.
  apply (proj2 (register_stops_at_an_abstract_model
                  [Models.User] Models.Base [Models.Book] false ∅ []
                  eq_refl)).
  - repeat constructor.
  - right. split; [apply NoDup_singleton | repeat constructor].
Defined.

(** X13. With [allow_existing] left at its default [register] never
    raises [AlreadyRegistered], whatever is registered already. *)
Theorem register_allows_existing_models arg registry connected message :
  (register arg true registry connected).2 ≠
    Some (AlreadyRegistered message).
Proof.
  unfold register. generalize (as_iterable arg) as models.
  intros models. revert registry connected.
  induction models as [|m models IH]; intros registry connected; [done|].
  simpl. destruct (abstract m); [done|].
  rewrite andb_false_r. apply IH.
Qed.

(** X14. Without [allow_existing], [register] stops with
    [AlreadyRegistered] at the first model that is registered already or
    that the same call has registered before; the new, distinct models
    before it stay registered. *)
Theorem register_refuses_an_existing_model
    before m after registry connected :
  Forall (λ m, abstract m = false) before →
  NoDup before →
  Forall (λ m, registry !! m = None) before →
  abstract m = false →
  is_Some (registry !! m) ∨ m ∈ before →
  ∃ registry' connected',
    register (some_models before) false registry connected =
      (registry', connected', None)
    ∧ register (some_models (before ++ m :: after)) false registry connected =
        (registry', connected',
         Some (AlreadyRegistered
                 ("The model " +:+ __name__ m +:+ " is already registered"))).
Proof.
  intros Hconcrete Hnodup Hfresh Hm Hexisting.
  destruct (register_loop_None before false registry connected Hconcrete)
    as (registry' & Hloop & Hlookup); [by right|].
  eexists _, _. unfold register. simpl. split; [exact Hloop|].
  rewrite register_loop_app, Hloop. simpl. rewrite Hm.
  rewrite bool_decide_true; [done|]. rewrite Hlookup.
  destruct (decide (m ∈ before)) as [Hin|Hnotin]; [done|].
  by destruct Hexisting.
Qed.

Lemma register_refuses_an_existing_model_witness :
  ∃ registry' connected',
    register (some_models [Models.User]) false ∅ [] =
      (registry', connected', None)
    ∧ register (some_models ([Models.User] ++ Models.User :: [])) false ∅ [] =
        (registry', connected',
         Some (AlreadyRegistered
                 ("The model " +:+ __name__ Models.User
                  +:+ " is already registered"))).
Proof.
  apply register_refuses_an_existing_model.
  - repeat constructor.
  - apply NoDup_singleton.
  - repeat constructor.
  - reflexivity.
  - right. apply list_elem_of_singleton. reflexivity.
Defined.

Lemma unregister_loop_app before after : ∀ registry,
  unregister_loop (before ++ after) registry =
    match unregister_loop before registry with
    | (registry', None) => unregister_loop after registry'
    | stopped => stopped
    end.
Proof.
  induction before as [|m before IH]; intros registry; [done|].
  simpl. destruct (bool_decide _); [apply IH|done].
Qed.

Lemma unregister_loop_None models : ∀ registry,
  NoDup models →
  Forall (λ m, is_Some (registry !! m)) models →
  ∃ registry',
    unregister_loop models registry = (registry', None)
    ∧ ∀ m, registry' !! m =
             if decide (m ∈ models) then None else registry !! m.
Proof.
  induction models as [|m models IH]; intros registry Hnodup Hall.
  - exists registry. split; [done|].
    intros m. destruct (decide (m ∈ [])) as [Hin|_]; [|done].
    by apply elem_of_nil in Hin.
  - apply NoDup_cons in Hnodup as [Hnotin Hnodup].
    apply Forall_cons in Hall as [Hm Hall].
    cbn [unregister_loop]. rewrite bool_decide_true by done.
    destruct (IH (delete m registry) Hnodup) as (registry' & Hloop & Hlookup).
    { apply Forall_forall. intros m' Hin.
      rewrite lookup_delete_ne by (by intros ->).
      by apply (proj1 (Forall_forall _ _) Hall). }
    exists registry'. split; [done|].
    intros m'. rewrite Hlookup.
    destruct (decide (m' ∈ models)) as [Hin|Hnotin'].
    + rewrite decide_True by (apply elem_of_cons; by right). done.
    + destruct (decide (m = m')) as [->|Hne].
      * rewrite lookup_delete_eq.
        rewrite decide_True by (apply elem_of_cons; by left). done.
      * rewrite lookup_delete_ne by done.
        rewrite decide_False; [done|].
        intros [?|?]%elem_of_cons; by subst.
Qed.

(** X15. [unregister] succeeds on distinct registered models: afterwards
    none of them is registered, and the other entries are as before. *)
Theorem unregister_removes_every_model arg registry :
  NoDup (as_iterable arg) →
  Forall (λ m, is_Some (registry !! m)) (as_iterable arg) →
  ∃ registry',
    unregister arg registry = (registry', None)
    ∧ ∀ m, registry' !! m =
             if decide (m ∈ as_iterable arg) then None else registry !! m.
Proof. apply unregister_loop_None. Qed.

Lemma unregister_removes_every_model_witness :
  ∃ registry',
    unregister (a_model Models.User)
      (<[Models.User := {| model := Models.User |}]> ∅) = (registry', None)
    ∧ ∀ m, registry' !! m =
             if decide (m ∈ as_iterable (a_model Models.User)) then None
             else (<[Models.User := {| model := Models.User |}]> ∅
                     : gmap ModelBase ModelChanges) !! m.
Proof.
  apply unregister_removes_every_model.
  - apply NoDup_singleton.
  - repeat constructor. by rewrite lookup_insert_eq.
Defined.

(** X16. [unregister] stops with [NotRegistered] at the first model that
    is not registered, or that the same call has removed before; the
    models before it stay removed. *)
Theorem unregister_stops_at_a_missing_model before m after registry :
  NoDup before →
  Forall (λ m, is_Some (registry !! m)) before →
  registry !! m = None ∨ m ∈ before →
  ∃ registry',
    unregister (some_models before) registry = (registry', None)
    ∧ unregister (some_models (before ++ m :: after)) registry =
        (registry',
         Some (NotRegistered
                 ("The model " +:+ __name__ m +:+ " is not registered"))).
Proof.
  intros Hnodup Hall Hmissing.
  destruct (unregister_loop_None before registry Hnodup Hall)
    as (registry' & Hloop & Hlookup).
  exists registry'. unfold unregister. simpl. split; [done|].
  rewrite unregister_loop_app, Hloop. cbn [unregister_loop].
  rewrite bool_decide_false; [done|]. rewrite Hlookup.
  destruct (decide (m ∈ before)) as [Hin|Hnotin]; [by intros [? ?]|].
  destruct Hmissing as [->|?]; [by intros [? ?]|done].
Qed.

Lemma unregister_stops_at_a_missing_model_witness :
  ∃ registry',
    unregister (some_models [Models.User])
      (<[Models.User := {| model := Models.User |}]> ∅) = (registry', None)
    ∧ unregister (some_models ([Models.User] ++ Models.User :: []))
        (<[Models.User := {| model := Models.User |}]> ∅) =
        (registry',
         Some (NotRegistered
                 ("The model " +:+ __name__ Models.User
                  +:+ " is not registered"))).
Proof.
  apply unregister_stops_at_a_missing_model.
  - apply NoDup_singleton.
  - repeat constructor. by rewrite lookup_insert_eq.
  - right. apply list_elem_of_singleton. reflexivity.
Defined.



End Registry.

(** * Instances of a class without relations *)

Lemma no_relations cls :
  Forall (λ f, rel f = false) (local_fields cls) → relations cls = [].
Proof.
  unfold relations. induction (local_fields cls) as [|f fs IH];
    intros Hall; [done|].
  apply Forall_cons in Hall as [Hf Hall].
  rewrite filter_cons_False by congruence. by apply IH.
Qed.

(** X18. For a class without relations whose fields have distinct
    attribute names, the instances that [old_instance()] and
    [previous_instance()] build always read back as [old_state()] and
    [previous_state()]. *)
Theorem plain_instances_read_back m actions self sent old previous :
  Forall (λ f, rel f = false) (local_fields (_meta m)) →
  NoDup (attname <$> local_fields (_meta m)) →
  lifecycle m actions = Ok (self, sent) →
  old_state self = Ok old →
  previous_state self = Ok previous →
  (∃ m', old_instance self = Ok m'
     ∧ ∀ states,
         current_state {| instance := m'; _states := states |} = Ok old)
  ∧ (∃ m', previous_instance self = Ok m'
       ∧ ∀ states,
           current_state {| instance := m'; _states := states |} =
             Ok previous).
Proof.
  intros Hplain Hnodup Hlife Hold Hprev.
  apply lifecycle_captured in Hlife as [Hmeta Hall].
  rewrite <- Hmeta in *.
  assert (Hcaptured := proj1 (Forall_forall _ _) Hall).
  assert (Hwf : wf_options (_meta (instance self))).
  { unfold wf_options. rewrite (no_relations _ Hplain). simpl.
    by rewrite app_nil_r. }
  assert (Hcoherent : ∀ state, coherent (_meta (instance self)) state).
  { intros state field v Hin Hrel.
    rewrite (proj1 (Forall_forall _ _) Hplain field Hin) in Hrel. done. }
  unfold old_instance, previous_instance. rewrite Hold, Hprev. simpl.
  split; apply _instance_from_state_round_trip; try done.
  - apply Hcaptured. by apply old_state_elem_of.
  - apply Hcaptured. by apply previous_state_elem_of.
Qed.

Lemma plain_instances_read_back_witness :
  (∃ m', old_instance Scenario.after_C = Ok m'
     ∧ ∀ states,
         current_state {| instance := m'; _states := states |} =
           Ok (Scenario.user_state (VInt 1) "x"))
  ∧ (∃ m', previous_instance Scenario.after_C = Ok m'
       ∧ ∀ states,
           current_state {| instance := m'; _states := states |} =
             Ok (Scenario.user_state (VInt 1) "y")).
Proof.
  apply (plain_instances_read_back (Scenario.user VNone "x")
           Scenario.three_captures Scenario.after_C
           [Scenario.user_call Scenario.after_B;
            Scenario.user_call Scenario.after_C]).
  - repeat constructor.
  - refine (bool_decide_unpack _ _). vm_compute. exact I.
  - vm_compute. reflexivity.
  - reflexivity.
  - reflexivity.
Defined.
